(** * observable: the subject class (include/observable/subject.hpp)

    A subject stores observers under a tag and calls the ones whose parameter
    types match the arguments of a notification.  The subscriber table is a
    [std::unordered_map<Tag, function_collection>] held through a
    [std::shared_ptr]; [subscribe] and [unsubscribe] make [functions_] point to
    a copy of the table (detail::snapshot) and then change that copy,
    [notify_tagged] reads the table [functions_] points to.

    The development models
    - the tables as values on a heap of reference-counted objects, addressed by
      their position, so that a table that is changed in place and a table that
      is replaced by a copy are different things; nothing is ever freed;
    - an operation as a function on the members of the subject, with the result
      [None] for the dereference of a null or dangling pointer;
    - an observer as a total state transformer, the parameter [invoke], which
      may change the subject (an observer can subscribe and unsubscribe) and
      the rest of the program; observers that throw or do not return are not
      modelled;
    - threads as interleavings of the statements of the three operations.

    The headers detail/function_traits.hpp, detail/function_collection.hpp and
    detail/handle.hpp are not among the sources; what is used of them is
    modelled from the specification and marked as such. *)

From stdpp Require Import base option list sorting gmap strings.
From Stdlib Require Import Lia.

(** ** Function types and function_traits *)

Section function_traits.
Context {Ty : Type}.

(** How a parameter of a callback is declared: [T], [T const &] or [T &]. *)
Inductive passing := pass_by_value | pass_by_const_reference | pass_by_mutable_reference.

Record parameter := MkParameter {
  param_type : Ty;
  param_passing : passing
}.

(** [return_type = None] is [void]. *)
Record function_type := MkFunctionType {
  return_type : option Ty;
  parameter_types : list parameter
}.

(** Modelled from the spec: detail/function_traits.hpp is not part of the
    sources at hand.  [function_traits<F>::normalized] is the canonical
    signature used as storage and dispatch key: the return type and the
    parameter types with the way they are passed stripped, so that argument
    lists that differ only in qualifiers at the call site name one bucket. *)
Definition normalized (ft : function_type) : option Ty * list Ty :=
  (return_type ft, param_type <$> parameter_types ft).

(** Modelled from the spec: whether the canonical form of an argument can
    initialise a parameter declared with this passing mode.  A value and a
    const reference accept it, a mutable reference does not. *)
Definition accepts_normalized (p : parameter) : bool :=
  match param_passing p with
  | pass_by_mutable_reference => false
  | pass_by_value | pass_by_const_reference => true
  end.

(** Modelled from the spec: [std::is_convertible<std::function<signature>,
    std::function<normalized>>] for the two members of function_traits. *)
Definition is_convertible_to_normalized (ft : function_type) : bool :=
  forallb accepts_normalized (parameter_types ft).

Definition return_diagnostic : string :=
  "Subscription function cannot return a value.".
Definition reference_diagnostic : string :=
  "Subscription function arguments must not be non-const references.".

(** detail::check_compatibility: the diagnostics of the static assertions
    that fail for the function type, in source order.  The empty list means
    that the instantiation compiles. *)
Definition check_compatibility (ft : function_type) : list string :=
  (if return_type ft is None then [] else [return_diagnostic]) ++
  (if is_convertible_to_normalized ft then [] else [reference_diagnostic]).

Definition has_mutable_reference (ft : function_type) : Prop :=
  ∃ p, p ∈ parameter_types ft ∧ param_passing p = pass_by_mutable_reference.
End function_traits.

Global Arguments parameter : clear implicits.
Global Arguments function_type : clear implicits.

(** ** function_collection *)

Section function_collection.
Context {Ty : Type} `{Countable Ty}.
Context {Function : Type}.

(** Modelled from the spec: detail/function_collection.hpp is not part of
    the sources at hand.  A collection maps a normalized signature to its
    bucket, the stored callables with their identifiers in insertion order;
    identifiers come from one counter of the collection and are never
    reused. *)
Record function_collection := MkCollection {
  buckets : gmap (option Ty * list Ty) (list (nat * Function));
  last_id : nat
}.

(** A default-constructed collection, as [operator[]] of the table makes
    one. *)
Definition empty_collection : function_collection :=
  MkCollection ∅ 0.

(** The bucket of a signature, empty when the collection has none. *)
Definition bucket (sig : option Ty * list Ty) (c : function_collection)
  : list (nat * Function) :=
  default [] (buckets c !! sig).

(** Modelled from the spec: [insert<Signature>(callable) -> Id]. *)
Definition insert_function (sig : option Ty * list Ty) (f : Function)
    (c : function_collection) : nat * function_collection :=
  let id := S (last_id c) in
  (id, MkCollection (<[sig := bucket sig c ++ [(id, f)]]> (buckets c)) id).

(** Modelled from the spec: [remove(id)] searches all buckets. *)
Definition remove (id : nat) (c : function_collection) : function_collection :=
  MkCollection (filter (λ e, e.1 ≠ id) <$> buckets c) (last_id c).
End function_collection.

Global Arguments function_collection Ty {_ _} Function.


(** ** handle *)

(** Modelled from the spec: detail/handle.hpp is not part of the sources at
    hand.  A subscription token holds one removal action, which it runs at most
    once.  The action built by [subscribe] is a closure over the tag and the
    identifier of the subscription (and over the subject and a weak pointer to
    its mutex, which are the subject state the action is run on). *)
Record handle (Tag : Type) := MkHandle {
  unsubscribe_ : option (Tag * nat)
}.
Global Arguments MkHandle {Tag} _.
Global Arguments unsubscribe_ {Tag} _.

(** ** subject *)

Section subject.
Context {Tag : Type} `{Countable Tag} (no_tag : Tag).
Context {Ty : Type} `{Countable Ty}.
Context {Value : Type} (type_of : Value → Ty).
Context {Function : Type} (traits : Function → function_type Ty).

(** The members of a subject.  [heap] holds the tables that were allocated with
    [std::make_shared], [functions_] is the address of the current one, or
    [None] for a null or dangling pointer, and [mutex_] tells whether the mutex
    still has an owner, which is what a [std::weak_ptr] to it observes. *)
Record subject := MkSubject {
  heap : list (gmap Tag (function_collection Ty Function));
  functions_ : option nat;
  mutex_ : bool
}.

(** [subject() = default]: both members are made by [std::make_shared]. *)
Definition empty_subject : subject := MkSubject [∅] (Some 0) true.


(** [subject(subject && other) = default] and the defaulted move assignment:
    the two shared pointers are moved member by member, which leaves null
    pointers in [other].  The result is the new owner and [other] as the move
    leaves it.  The mutex itself has an owner as before, the new one, so a weak
    pointer to it can be locked as before: the closure of a subscription made
    through [other] keeps such a weak pointer, and keeps [this], the address
    of [other]. *)
Definition move (other : subject) : subject * subject :=
  (MkSubject (heap other) (functions_ other) (mutex_ other),
   MkSubject (heap other) None (mutex_ other)).

(** [*functions] for a pointer into the heap of [st]. *)
Definition table_at (st : subject) (functions : option nat)
  : option (gmap Tag (function_collection Ty Function)) :=
  p ← functions; heap st !! p.

(** detail::snapshot: under the mutex, [functions] is made to point to a fresh
    copy of the table it points to. *)
Definition snapshot (st : subject) : option subject :=
  if mutex_ st then
    table ← table_at st (functions_ st);
    Some (MkSubject (heap st ++ [table]) (Some (length (heap st))) (mutex_ st))
  else None.

(** subject::subscribe after the snapshot: the lookup of the tag with
    [operator[]] and [insert] work in place on the table [functions_] points
    to; the closure of the returned subscription captures the tag and the
    identifier. *)
Definition subscribe_insert (tag : Tag) (f : Function) (st : subject)
  : option (handle Tag * subject) :=
  p ← functions_ st;
  table ← heap st !! p;
  let '(id, collection) :=
    insert_function (normalized (traits f)) f
      (default empty_collection (table !! tag)) in
  Some (MkHandle (Some (tag, id)),
        MkSubject (<[p := <[tag := collection]> table]> (heap st))
          (functions_ st) (mutex_ st)).

(** subject::subscribe (tagged), the code that runs once the static assertions
    of check_compatibility hold. *)
Definition subscribe (tag : Tag) (f : Function) (st : subject)
  : option (handle Tag * subject) :=
  st1 ← snapshot st; subscribe_insert tag f st1.

(** subject::subscribe (untagged). *)
Definition subscribe_untagged (f : Function) (st : subject)
  : option (handle Tag * subject) :=
  subscribe no_tag f st.

(** The instantiation of the member template [subscribe] for a callback type:
    either the diagnostics of the static assertions, or the code above. *)
Definition instantiate_subscribe (f : Function)
  : list string + (Tag → subject → option (handle Tag * subject)) :=
  match check_compatibility (traits f) with
  | [] => inr (λ tag st, subscribe tag f st)
  | d :: ds => inl (d :: ds)
  end.

(** detail::unsubscribe after the snapshot: find the tag, remove the id. *)
Definition unsubscribe_remove (tag : Tag) (id : nat) (st : subject)
  : option subject :=
  p ← functions_ st;
  table ← heap st !! p;
  match table !! tag with
  | None => Some st
  | Some collection =>
      Some (MkSubject (<[p := <[tag := remove id collection]> table]> (heap st))
              (functions_ st) (mutex_ st))
  end.

(** detail::unsubscribe: nothing happens when the weak pointer to the mutex
    cannot be locked. *)
Definition unsubscribe (tag : Tag) (id : nat) (st : subject) : option subject :=
  if mutex_ st then
    st1 ← snapshot st; unsubscribe_remove tag id st1
  else Some st.

(** Modelled from the spec: [unsubscribe()] of a subscription token runs the
    captured action at most once. *)
Definition handle_unsubscribe (h : handle Tag) (st : subject)
  : option (handle Tag * subject) :=
  match unsubscribe_ h with
  | None => Some (h, st)
  | Some (tag, id) => st' ← unsubscribe tag id st; Some (MkHandle None, st')
  end.

(** *** Notification *)

Context {World : Type}.

(** What calling an observer does: to the subject, when the observer calls
    [subscribe] or [unsubscribe] on it, and to the rest of the program. *)
Context (invoke : Function → list Value → subject * World → subject * World).

(** [function_traits<void(Arguments ...)>::normalized] in detail::call. *)
Definition normalized_arguments (args : list Value) : option Ty * list Ty :=
  (None, type_of <$> args).

(** The calls a notification makes: identifier, callable and arguments. *)
Definition invocation : Type := nat * Function * list Value.

Fixpoint invoke_each (fs : list (nat * Function)) (args : list Value)
    (m : subject * World) : subject * World * list invocation :=
  match fs with
  | [] => (m, [])
  | (id, f) :: fs' =>
      let '(m', calls) := invoke_each fs' args (invoke f args m) in
      (m', (id, f, args) :: calls)
  end.

(** Modelled from the spec: [call_all<Signature>(arguments...)] calls the
    callables of the bucket of the signature, in insertion order. *)
Definition call_all (sig : option Ty * list Ty)
    (c : function_collection Ty Function) (args : list Value)
    (m : subject * World) : subject * World * list invocation :=
  invoke_each (bucket sig c) args m.

(** detail::call.  Its static assertion is on a normalized signature and
    cannot fail. *)
Definition call (c : function_collection Ty Function) (args : list Value)
    (m : subject * World) : subject * World * list invocation :=
  call_all (normalized_arguments args) c args m.

(** subject::notify_tagged after [functions] was loaded: find and call. *)
Definition notify_find (functions : option nat) (tag : Tag) (args : list Value)
    (m : subject * World) : option (subject * World * list invocation) :=
  table ← table_at m.1 functions;
  match table !! tag with
  | None => Some (m, [])
  | Some collection => Some (call collection args m)
  end.

(** subject::notify_tagged: no mutex, the table is the one [functions_] points
    to when the call starts. *)
Definition notify_tagged (tag : Tag) (args : list Value) (m : subject * World)
  : option (subject * World * list invocation) :=
  notify_find (functions_ m.1) tag args m.

(** subject::notify_untagged. *)
Definition notify_untagged (args : list Value) (m : subject * World)
  : option (subject * World * list invocation) :=
  notify_tagged no_tag args m.

(** *** Views of the state used in the statements *)

(** The table [functions_] points to. *)
Definition current (st : subject)
  : option (gmap Tag (function_collection Ty Function)) :=
  table_at st (functions_ st).

(** The collection of a tag in the current table; [operator[]] makes an empty
    one for a tag that has none. *)
Definition tag_collection (st : subject) (tag : Tag)
  : function_collection Ty Function :=
  match current st with
  | Some table => default empty_collection (table !! tag)
  | None => empty_collection
  end.

(** The subscriptions a notification with this tag and signature reaches. *)
Definition subscribers (st : subject) (tag : Tag) (sig : option Ty * list Ty)
  : list (nat * Function) :=
  bucket sig (tag_collection st tag).

(** The callable is in some bucket of some table of the heap. *)
Definition stored (st : subject) (f : Function) : Prop :=
  ∃ p table tag c sig fs id,
    heap st !! p = Some table ∧ table !! tag = Some c ∧
    buckets c !! sig = Some fs ∧ (id, f) ∈ fs.

(** The identifier was given out for the tag. *)
Definition issued (st : subject) (tag : Tag) (id : nat) : Prop :=
  id ≤ last_id (tag_collection st tag).

(** The identifier was given out for the tag and is in none of its buckets. *)
Definition retired (st : subject) (tag : Tag) (id : nat) : Prop :=
  issued st tag id ∧ ∀ sig, id ∉ (subscribers st tag sig).*1.

(** One call of [subscribe], for a callback type the template can be
    instantiated with, or one run of the action of a subscription token, on
    the object that owns the table.  A move hands the table to another object
    without changing it; what it does to the tokens of the object it takes the
    table from is the matter of [move]. *)
Inductive api_step (st st1 : subject) : Prop :=
| api_subscribe tag f sub h :
    instantiate_subscribe f = inr sub → sub tag st = Some (h, st1) →
    api_step st st1
| api_unsubscribe tag id :
    unsubscribe tag id st = Some st1 → api_step st st1.

(** The states a subject goes through from its construction. *)
Definition reachable (st : subject) : Prop := rtc api_step empty_subject st.

(** The identifiers of a bucket grow with the position and are bounded by the
    counter of the collection. *)
Definition collection_wf (c : function_collection Ty Function) : Prop :=
  ∀ sig fs, buckets c !! sig = Some fs →
    StronglySorted lt fs.*1 ∧ Forall (λ e, e.1 ≤ last_id c) fs.

(** A live subject: the mutex is owned, [functions_] points to a table, and the
    collections of that table are well formed. *)
Definition subject_wf (st : subject) : Prop :=
  mutex_ st = true ∧
  ∃ table, current st = Some table ∧
    ∀ tag c, table !! tag = Some c → collection_wf c.

(** *** Threads

    The operations as sequences of statements between which another thread
    can run.  detail::snapshot is the lock of the mutex, the copy with the
    assignment to [functions], and the unlock at the end of its scope;
    [subscribe] is the snapshot and the insertion, detail::unsubscribe is the
    lock of the weak pointer, the snapshot and the removal, [notify_tagged] is
    the load of [functions_] and the lookup with the calls.

    The statements are coarser than the program: the lookup with [operator[]]
    and the insertion (lines 145 and 146) are one statement, as are the lookup
    and the removal (lines 119 to 123), and the observers that a notification
    calls run within its second statement, where an observer that subscribes
    or unsubscribes would have to wait for the mutex.  With observers that do
    not call the subject, every run of the statements is a run of the program,
    one in which no thread is interrupted inside a statement; the program has
    runs that the statements do not have.  The model therefore serves to
    exhibit interleavings, with such observers, and not to show what holds of
    all interleavings. *)

Inductive operation :=
| op_subscribe (tag : Tag) (f : Function)
| op_unsubscribe (tag : Tag) (id : nat)
| op_notify (tag : Tag) (args : list Value).

Inductive statement :=
| s_lock                              (* line 103 *)
| s_weak_lock                         (* lines 113-115, then line 103 *)
| s_copy                              (* line 104 *)
| s_unlock                            (* line 105 *)
| s_insert (tag : Tag) (f : Function) (* lines 145-152 *)
| s_remove (tag : Tag) (id : nat)     (* lines 119-123 *)
| s_load                              (* line 167 *)
| s_find (tag : Tag) (args : list Value). (* lines 168-172 *)

Definition statements (op : operation) : list statement :=
  match op with
  | op_subscribe tag f => [s_lock; s_copy; s_unlock; s_insert tag f]
  | op_unsubscribe tag id => [s_weak_lock; s_copy; s_unlock; s_remove tag id]
  | op_notify tag args => [s_load; s_find tag args]
  end.

(** A thread: the statements it still has to run, the local [functions] of
    notify_tagged, and the calls its notifications have made. *)
Record thread := MkThread {
  todo : list statement;
  functions : option nat;
  called : list invocation
}.

(** A thread that is to run the operations, one after the other. *)
Definition thread_of (ops : list operation) : thread :=
  MkThread (ops ≫= statements) None [].

(** The subject the threads share, the rest of the program, the thread that
    holds the mutex, the threads. *)
Record config := MkConfig {
  shared : subject;
  world : World;
  owner : option nat;
  threads : list thread
}.

(** The thread waits for the mutex. *)
Definition blocked (c : config) (th : thread) : bool :=
  match todo th with
  | s_lock :: _ | s_weak_lock :: _ =>
      mutex_ (shared c) && bool_decide (is_Some (owner c))
  | _ => false
  end.

(** The next statement of thread [i].  A thread that waits for the mutex stays
    where it is.  When the weak pointer cannot be locked, detail::unsubscribe
    returns: its other three statements are dropped. *)
Definition config_step (i : nat) (c : config) : option config :=
  th ← threads c !! i;
  let continue rest st w o fn cs :=
    Some (MkConfig st w o (<[i := MkThread rest fn cs]> (threads c))) in
  if blocked c th then Some c else
  match todo th with
  | [] => Some c
  | s_lock :: rest =>
      if mutex_ (shared c)
      then continue rest (shared c) (world c) (Some i) (functions th) (called th)
      else None
  | s_weak_lock :: rest =>
      if mutex_ (shared c)
      then continue rest (shared c) (world c) (Some i) (functions th) (called th)
      else continue (drop 3 rest) (shared c) (world c) (owner c)
             (functions th) (called th)
  | s_copy :: rest =>
      st ← snapshot (shared c);
      continue rest st (world c) (owner c) (functions th) (called th)
  | s_unlock :: rest =>
      continue rest (shared c) (world c) None (functions th) (called th)
  | s_insert tag f :: rest =>
      '(_, st) ← subscribe_insert tag f (shared c);
      continue rest st (world c) (owner c) (functions th) (called th)
  | s_remove tag id :: rest =>
      st ← unsubscribe_remove tag id (shared c);
      continue rest st (world c) (owner c) (functions th) (called th)
  | s_load :: rest =>
      continue rest (shared c) (world c) (owner c) (functions_ (shared c))
        (called th)
  | s_find tag args :: rest =>
      '(m, calls) ← notify_find (functions th) tag args (shared c, world c);
      continue rest m.1 m.2 (owner c) (functions th) (called th ++ calls)
  end.

(** A schedule names the thread that runs next. *)
Fixpoint run_schedule (schedule : list nat) (c : config) : option config :=
  match schedule with
  | [] => Some c
  | i :: schedule' => c' ← config_step i c; run_schedule schedule' c'
  end.

(** The shared objects: the member [functions_] and the tables. *)
Inductive object := the_pointer | the_table (p : nat).

(** An access of a statement: to which object (none for a null pointer), and
    whether it writes. *)
Record access := MkAccess {
  target : option object;
  is_write : bool
}.

(** The table a pointer refers to, as an object. *)
Definition table_object (functions : option nat) : option object :=
  the_table <$> functions.

(** What the next statement of a thread itself reads and writes.  The copy
    reads [functions] and the table and assigns to [functions]; the insertion
    and the removal go through [functions_] to the table, which the removal
    changes when it finds the tag; the lookup of a notification reads the
    table it has loaded.  What the observers called by the notification access
    is not listed: the accesses listed are accesses of the program, and there
    may be more. *)
Definition next_accesses (st : subject) (th : thread) : list access :=
  match todo th with
  | s_copy :: _ =>
      [MkAccess (Some the_pointer) false;
       MkAccess (table_object (functions_ st)) false;
       MkAccess (Some the_pointer) true]
  | s_insert _ _ :: _ =>
      [MkAccess (Some the_pointer) false;
       MkAccess (table_object (functions_ st)) true]
  | s_remove tag _ :: _ =>
      [MkAccess (Some the_pointer) false;
       MkAccess (table_object (functions_ st))
         (bool_decide (is_Some (current st ≫= (.!! tag))))]
  | s_load :: _ => [MkAccess (Some the_pointer) false]
  | s_find _ _ :: _ => [MkAccess (table_object (functions th)) false]
  | _ => []
  end.

(** Both are the same object; a null pointer names none. *)
Definition same_object (o1 o2 : option object) : bool :=
  match o1, o2 with
  | Some the_pointer, Some the_pointer => true
  | Some (the_table p), Some (the_table q) => bool_decide (p = q)
  | _, _ => false
  end.

(** Two accesses conflict when they are to the object and one of them
    writes. *)
Definition conflict (o : object) (a b : access) : bool :=
  same_object (Some o) (target a) && same_object (Some o) (target b) &&
  (is_write a || is_write b).

(** A data race on [o]: the next statements of two threads, neither of which
    waits for the mutex, access [o] in conflict. *)
Definition data_race (o : object) (i j : nat) (c : config) : bool :=
  negb (bool_decide (i = j)) &&
  match threads c !! i, threads c !! j with
  | Some ti, Some tj =>
      negb (blocked c ti) && negb (blocked c tj) &&
      existsb (λ a, existsb (conflict o a) (next_accesses (shared c) tj))
        (next_accesses (shared c) ti)
  | _, _ => false
  end.

(** *** Further views of the state *)

(** The callable is in the bucket of the signature, in some table. *)
Definition stored_under (st : subject) (sig : option Ty * list Ty)
    (f : Function) : Prop :=
  ∃ p table tag c fs id,
    heap st !! p = Some table ∧ table !! tag = Some c ∧
    buckets c !! sig = Some fs ∧ (id, f) ∈ fs.

(** No identifier is in two buckets of the collection. *)
Definition collection_unique (c : function_collection Ty Function) : Prop :=
  ∀ sig sig' fs fs' e e',
    buckets c !! sig = Some fs → buckets c !! sig' = Some fs' →
    e ∈ fs → e' ∈ fs' → e.1 = e'.1 → sig = sig'.

End subject.

Global Arguments subject Tag {_ _} Ty {_ _} Function.
Global Arguments thread Tag Value Function : clear implicits.
Global Arguments config Tag {_ _} Ty {_ _} Value Function World.
Global Arguments operation Tag Value Function : clear implicits.
Global Arguments statement Tag Value Function : clear implicits.

(** ** An instance: [subject<std::string>] with observers that log their calls *)

Module example.

Inductive value := v_int (n : nat) | v_text (s : string).

Definition type_of (v : value) : string :=
  match v with
  | v_int _ => "int"
  | v_text _ => "std::string"
  end.

(** An observer is told by its name; [type] is its function type. *)
Record observer := MkObserver {
  name : string;
  type : function_type string
}.

(** [[](int x) { ... }] *)
Definition on_int (n : string) : observer :=
  MkObserver n (MkFunctionType None [MkParameter "int" pass_by_value]).

(** [[](std::string const & s) { ... }] *)
Definition on_text (n : string) : observer :=
  MkObserver n
    (MkFunctionType None [MkParameter "std::string" pass_by_const_reference]).

(** [[](int x) { return x; }] *)
Definition returns_int : observer :=
  MkObserver "returns_int"
    (MkFunctionType (Some "int") [MkParameter "int" pass_by_value]).

(** [[](int & x) { x = 1; }] *)
Definition takes_reference : observer :=
  MkObserver "takes_reference"
    (MkFunctionType None [MkParameter "int" pass_by_mutable_reference]).

Definition log : Type := list (string * list value).

(** The observers write their name and arguments to the log. *)
Definition record_call (f : observer) (args : list value)
    (m : subject string string observer * log)
  : subject string string observer * log :=
  (m.1, m.2 ++ [(name f, args)]).

(** The observer called "again" also subscribes an observer under "A". *)
Definition resubscribing_call (f : observer) (args : list value)
    (m : subject string string observer * log)
  : subject string string observer * log :=
  if String.eqb (name f) "again" then
    match subscribe type "A" (on_int "late") m.1 with
    | Some (_, st) => (st, m.2 ++ [(name f, args)])
    | None => record_call f args m
    end
  else record_call f args m.

Definition after (r : option (handle string * subject string string observer))
  : subject string string observer :=
  default empty_subject (snd <$> r).

(** [s.subscribe("A", f)] *)
Definition one_subscriber : subject string string observer :=
  after (subscribe type "A" (on_int "f") empty_subject).

(** [s.subscribe("A", f); s.subscribe("A", g)] *)
Definition two_subscribers : subject string string observer :=
  after (subscribe type "A" (on_int "g") one_subscriber).

(** Two threads: one subscribes [f] under "A", one notifies "A" with 7. *)
Definition subscriber_and_notifier : config string string value observer log :=
  MkConfig empty_subject [] None
    [thread_of [op_subscribe "A" (on_int "f")];
     thread_of [op_notify "A" [v_int 7]]].

(** Two threads that subscribe under the same tag. *)
Definition two_subscriber_threads : config string string value observer log :=
  MkConfig empty_subject [] None
    [thread_of [op_subscribe "A" (on_int "f")];
     thread_of [op_subscribe "A" (on_int "g")]].

(** [s.subscribe("A", f); s.subscribe("A", g); s.subscribe("B", t)] *)
Definition three_subscribers : subject string string observer :=
  after (subscribe type "B" (on_text "t") two_subscribers).

End example.

(** * Properties *)

Section properties.
Context {Tag : Type} `{Countable Tag} (no_tag : Tag).
Context {Ty : Type} `{Countable Ty}.
Context {Value : Type} (type_of : Value → Ty).
Context {Function : Type} (traits : Function → function_type Ty).
Context {World : Type}.
Context (invoke : Function → list Value
  → subject Tag Ty Function * World → subject Tag Ty Function * World).

Abbreviation state := (subject Tag Ty Function).
Abbreviation collection := (function_collection Ty Function).
Abbreviation signature := (option Ty * list Ty)%type.

(** ** function_collection *)

Lemma bucket_insert_function (sig sig' : signature) (f : Function) (c : collection) :
  bucket sig' (insert_function sig f c).2 =
  if decide (sig = sig') then bucket sig c ++ [(S (last_id c), f)]
  else bucket sig' c.
Proof.
  unfold bucket at 1. simpl. rewrite lookup_insert.
  destruct (decide (sig = sig')); done.
Qed.

Lemma bucket_remove (sig : signature) (id : nat) (c : collection) :
  bucket sig (remove id c) = filter (λ e, e.1 ≠ id) (bucket sig c).
Proof.
  unfold bucket. simpl. rewrite lookup_fmap.
  destruct (buckets c !! sig); done.
Qed.

Lemma bucket_empty_collection (sig : signature) :
  bucket sig (empty_collection : collection) = [].
Proof. unfold bucket. simpl. by rewrite lookup_empty. Qed.

Lemma collection_wf_bucket (c : collection) (sig : signature) :
  collection_wf c →
  StronglySorted lt (bucket sig c).*1 ∧
  Forall (λ e, e.1 ≤ last_id c) (bucket sig c).
Proof.
  intros Hwf. unfold bucket.
  destruct (buckets c !! sig) as [fs|] eqn:Hfs; simpl.
  - by apply (Hwf sig).
  - split; constructor.
Qed.

Lemma empty_collection_wf : collection_wf (empty_collection : collection).
Proof. intros sig fs. simpl. by rewrite lookup_empty. Qed.

Lemma StronglySorted_snoc_lt (l : list nat) (n : nat) :
  StronglySorted lt l → Forall (λ i, i < n) l → StronglySorted lt (l ++ [n]).
Proof.
  induction 1 as [|i l Hl IH Hi]; intros Hn; simpl.
  - repeat constructor.
  - inversion_clear Hn as [|? ? Hin Hln]. constructor.
    + by apply IH.
    + apply Forall_app. split; [done|]. by repeat constructor.
Qed.

Lemma insert_function_wf (sig : signature) (f : Function) (c : collection) :
  collection_wf c → collection_wf (insert_function sig f c).2.
Proof.
  intros Hwf sig' fs. simpl. rewrite lookup_insert.
  destruct (decide (sig = sig')) as [<-|Hne].
  - intros [= <-]. destruct (collection_wf_bucket c sig Hwf) as [Hs Hb].
    split.
    + rewrite fmap_app. simpl. apply StronglySorted_snoc_lt; [done|].
      apply Forall_fmap. eapply Forall_impl; [exact Hb|]. simpl. intros; lia.
    + apply Forall_app. split.
      * eapply Forall_impl; [exact Hb|]. simpl. intros; lia.
      * repeat constructor.
  - intros Hfs. destruct (Hwf sig' fs Hfs) as [Hs Hb]. split; [done|].
    eapply Forall_impl; [exact Hb|]. simpl. intros; lia.
Qed.

Lemma Forall_filter_keeps {A : Type} (P Q : A → Prop) `{∀ x, Decision (Q x)}
    (l : list A) :
  Forall P l → Forall P (filter Q l).
Proof.
  rewrite !Forall_forall. intros HP x Hx.
  apply list_elem_of_filter in Hx as [_ Hx]. by apply HP.
Qed.


Lemma StronglySorted_filter_fst (P : nat * Function → Prop)
    `{∀ e, Decision (P e)} (fs : list (nat * Function)) :
  StronglySorted lt fs.*1 → StronglySorted lt (filter P fs).*1.
Proof.
  induction fs as [|e fs IH]; [done|].
  rewrite fmap_cons. intros Hs. inversion_clear Hs as [|? ? Hs' Hall].
  rewrite filter_cons. destruct (decide (P e)).
  - rewrite fmap_cons. constructor; [by apply IH|].
    rewrite Forall_fmap in Hall. rewrite Forall_fmap.
    by apply (Forall_filter_keeps _ P).
  - by apply IH.
Qed.

Lemma remove_wf (id : nat) (c : collection) :
  collection_wf c → collection_wf (remove id c).
Proof.
  intros Hwf sig fs. simpl. rewrite lookup_fmap.
  destruct (buckets c !! sig) as [fs0|] eqn:Hfs0; simpl; [|done].
  intros [= <-]. destruct (Hwf sig fs0 Hfs0) as [Hs Hb]. split.
  - by apply StronglySorted_filter_fst.
  - by apply Forall_filter_keeps.
Qed.

(** ** The current table under the operations *)

Lemma snapshot_live (st : state) table :
  mutex_ st = true → current st = Some table →
  snapshot st =
    Some (MkSubject (heap st ++ [table]) (Some (length (heap st))) true).
Proof.
  intros Hm Hc. unfold snapshot. rewrite Hm.
  unfold current in Hc. by rewrite Hc.
Qed.

Lemma lookup_snoc_length {A : Type} (l : list A) (x : A) :
  (l ++ [x]) !! length l = Some x.
Proof. rewrite lookup_app_r; [|lia]. by rewrite Nat.sub_diag. Qed.

Lemma subscribe_live (tag : Tag) (f : Function) (st : state) table :
  mutex_ st = true → current st = Some table →
  let c0 := default empty_collection (table !! tag) in
  let c1 := (insert_function (normalized (traits f)) f c0).2 in
  subscribe traits tag f st =
    Some (MkHandle (Some (tag, S (last_id c0))),
          MkSubject (<[length (heap st) := <[tag := c1]> table]>
                       (heap st ++ [table]))
            (Some (length (heap st))) true).
Proof.
  intros Hm Hc c0 c1. unfold subscribe.
  rewrite (snapshot_live st table Hm Hc). simpl.
  unfold subscribe_insert. simpl. by rewrite lookup_snoc_length.
Qed.

Lemma unsubscribe_live (tag : Tag) (id : nat) (st : state) table :
  mutex_ st = true → current st = Some table →
  unsubscribe tag id st =
    Some (MkSubject
            (match table !! tag with
             | None => heap st ++ [table]
             | Some c =>
                 <[length (heap st) := <[tag := remove id c]> table]>
                   (heap st ++ [table])
             end)
            (Some (length (heap st))) true).
Proof.
  intros Hm Hc. unfold unsubscribe. rewrite Hm.
  rewrite (snapshot_live st table Hm Hc). simpl.
  unfold unsubscribe_remove. simpl. rewrite lookup_snoc_length. simpl.
  by destruct (table !! tag).
Qed.

Lemma current_replaced (l : list (gmap Tag collection)) table table' b :
  current (MkSubject (<[length l := table']> (l ++ [table])) (Some (length l)) b)
  = Some table'.
Proof.
  unfold current, table_at. simpl.
  apply list_lookup_insert_eq. rewrite length_app. simpl. lia.
Qed.

Lemma current_appended (l : list (gmap Tag collection)) table b :
  current (MkSubject (l ++ [table]) (Some (length l)) b) = Some table.
Proof. unfold current, table_at. simpl. apply lookup_snoc_length. Qed.

(** The table after [subscribe]. *)
Lemma current_subscribe (tag : Tag) (f : Function) (st : state) table :
  mutex_ st = true → current st = Some table →
  ∃ st1,
    subscribe traits tag f st =
      Some (MkHandle
              (Some (tag, S (last_id (default empty_collection (table !! tag))))),
            st1) ∧
    mutex_ st1 = true ∧
    current st1 =
      Some (<[tag := (insert_function (normalized (traits f)) f
                        (default empty_collection (table !! tag))).2]> table).
Proof.
  intros Hm Hc. eexists. split; [by apply subscribe_live|].
  split; [done|]. apply current_replaced.
Qed.

(** The table after detail::unsubscribe on a live subject. *)
Lemma current_unsubscribe (tag : Tag) (id : nat) (st : state) table :
  mutex_ st = true → current st = Some table →
  ∃ st1,
    unsubscribe tag id st = Some st1 ∧
    mutex_ st1 = true ∧
    current st1 =
      Some (match table !! tag with
            | None => table
            | Some c => <[tag := remove id c]> table
            end).
Proof.
  intros Hm Hc. eexists. split; [by apply unsubscribe_live|].
  split; [done|].
  destruct (table !! tag); [apply current_replaced|apply current_appended].
Qed.

(** Tables that existed before an operation are not touched by it. *)
Lemma subscribe_keeps_old_tables (tag : Tag) (f : Function) (st st1 : state) h
    (p : nat) :
  subscribe traits tag f st = Some (h, st1) →
  p < length (heap st) → heap st1 !! p = heap st !! p.
Proof.
  unfold subscribe, snapshot. destruct (mutex_ st); [|done].
  destruct (table_at st (functions_ st)) as [table|]; [|done]. simpl.
  unfold subscribe_insert. simpl. rewrite lookup_snoc_length. simpl.
  intros [= _ <-] Hp. simpl.
  rewrite list_lookup_insert_ne; [|lia]. by apply lookup_app_l.
Qed.

Lemma unsubscribe_keeps_old_tables (tag : Tag) (id : nat) (st st1 : state)
    (p : nat) :
  unsubscribe tag id st = Some st1 →
  p < length (heap st) → heap st1 !! p = heap st !! p.
Proof.
  unfold unsubscribe, snapshot. destruct (mutex_ st); [|by intros [= <-]].
  destruct (table_at st (functions_ st)) as [table|]; [|done]. simpl.
  unfold unsubscribe_remove. simpl. rewrite lookup_snoc_length. simpl.
  destruct (table !! tag); intros [= <-] Hp; simpl.
  - rewrite list_lookup_insert_ne; [|lia]. by apply lookup_app_l.
  - by apply lookup_app_l.
Qed.

(** ** Well-formedness is kept *)

Lemma empty_subject_wf : subject_wf (empty_subject : state).
Proof.
  split; [done|]. exists ∅. split; [done|].
  intros tag c. by rewrite lookup_empty.
Qed.

Lemma subscribe_wf (tag : Tag) (f : Function) (st : state) :
  subject_wf st →
  ∃ h st1, subscribe traits tag f st = Some (h, st1) ∧ subject_wf st1.
Proof.
  intros (Hm & table & Hc & Hwf).
  destruct (current_subscribe tag f st table Hm Hc) as (st1 & Hs & Hm1 & Hc1).
  eexists _, st1. split; [exact Hs|]. split; [done|].
  eexists. split; [exact Hc1|]. intros tag' c. rewrite lookup_insert.
  destruct (decide (tag = tag')) as [<-|Hne].
  - intros [= <-]. apply insert_function_wf.
    destruct (table !! tag) as [c0|] eqn:Hc0; simpl.
    + by apply (Hwf tag).
    + apply empty_collection_wf.
  - apply Hwf.
Qed.

Lemma unsubscribe_wf (tag : Tag) (id : nat) (st : state) :
  subject_wf st →
  ∃ st1, unsubscribe tag id st = Some st1 ∧ subject_wf st1.
Proof.
  intros (Hm & table & Hc & Hwf).
  destruct (current_unsubscribe tag id st table Hm Hc) as (st1 & Hs & Hm1 & Hc1).
  exists st1. split; [exact Hs|]. split; [done|].
  eexists. split; [exact Hc1|].
  destruct (table !! tag) as [c0|] eqn:Hc0; [|done].
  intros tag' c. rewrite lookup_insert.
  destruct (decide (tag = tag')) as [<-|Hne].
  - intros [= <-]. apply remove_wf. by apply (Hwf tag).
  - apply Hwf.
Qed.

(** ** Subscribers and notification *)

Lemma subscribers_current (st : state) table (tag : Tag) (sig : signature) :
  current st = Some table →
  subscribers st tag sig = bucket sig (default empty_collection (table !! tag)).
Proof.
  intros Hc. unfold subscribers, tag_collection. by rewrite Hc.
Qed.

Lemma subscribers_bounded (st : state) table (tag : Tag) (sig : signature) :
  subject_wf st → current st = Some table →
  StronglySorted lt (subscribers st tag sig).*1 ∧
  Forall (λ e, e.1 ≤ last_id (default empty_collection (table !! tag)))
    (subscribers st tag sig).
Proof.
  intros (_ & table' & Hc' & Hwf) Hc. rewrite Hc in Hc'. injection Hc' as <-.
  rewrite (subscribers_current st table tag sig Hc).
  apply collection_wf_bucket.
  destruct (table !! tag) as [c|] eqn:Htag; simpl.
  - by apply (Hwf tag).
  - apply empty_collection_wf.
Qed.

(** [subscribe] appends to one bucket and leaves the others as they are. *)
Lemma subscribers_subscribe (tag tag' : Tag) (f : Function) (sig' : signature)
    (st st1 : state) table h :
  mutex_ st = true → current st = Some table →
  subscribe traits tag f st = Some (h, st1) →
  subscribers st1 tag' sig' =
    if decide (tag = tag' ∧ normalized (traits f) = sig')
    then subscribers st tag' sig' ++
           [(S (last_id (default empty_collection (table !! tag))), f)]
    else subscribers st tag' sig'.
Proof.
  intros Hm Hc Hs.
  destruct (current_subscribe tag f st table Hm Hc) as (st1' & Hs' & _ & Hc1).
  rewrite Hs in Hs'. injection Hs' as _ <-.
  rewrite (subscribers_current st1 _ tag' sig' Hc1).
  rewrite (subscribers_current st table tag' sig' Hc).
  rewrite lookup_insert. destruct (decide (tag = tag')) as [<-|Hne].
  - cbn [from_option id]. rewrite bucket_insert_function.
    destruct (decide (normalized (traits f) = sig')) as [<-|Hsig].
    + rewrite decide_True; done.
    + rewrite decide_False; [done|]. by intros [_ ?].
  - rewrite decide_False; [done|]. by intros [? _].
Qed.

(** detail::unsubscribe filters the buckets of its tag. *)
Lemma subscribers_unsubscribe (tag tag' : Tag) (id : nat) (sig : signature)
    (st st1 : state) table :
  mutex_ st = true → current st = Some table →
  unsubscribe tag id st = Some st1 →
  subscribers st1 tag' sig =
    if decide (tag = tag')
    then filter (λ e, e.1 ≠ id) (subscribers st tag' sig)
    else subscribers st tag' sig.
Proof.
  intros Hm Hc Hs.
  destruct (current_unsubscribe tag id st table Hm Hc) as (st1' & Hs' & _ & Hc1).
  rewrite Hs in Hs'. injection Hs' as <-.
  rewrite (subscribers_current st1 _ tag' sig Hc1).
  rewrite (subscribers_current st table tag' sig Hc).
  destruct (decide (tag = tag')) as [<-|Hne].
  - destruct (table !! tag) as [c|] eqn:Htag; simpl.
    + rewrite lookup_insert_eq. simpl. apply bucket_remove.
    + rewrite Htag. simpl. by rewrite bucket_empty_collection.
  - destruct (table !! tag) as [c|] eqn:Htag; [|done].
    by rewrite lookup_insert_ne.
Qed.

Lemma invoke_each_calls (fs : list (nat * Function)) (args : list Value)
    (m : state * World) :
  (invoke_each invoke fs args m).2 = (λ e, (e.1, e.2, args)) <$> fs.
Proof.
  revert m. induction fs as [|[id f] fs IH]; intros m; simpl; [done|].
  specialize (IH (invoke f args m)).
  destruct (invoke_each invoke fs args (invoke f args m)) as [m' calls].
  simpl in *. by rewrite IH.
Qed.

(** The observers are applied one after the other, first to last, each to the
    state that the one before it has left. *)
Lemma invoke_each_foldl (fs : list (nat * Function)) (args : list Value)
    (m : state * World) :
  invoke_each invoke fs args m =
    (foldl (λ m' e, invoke e.2 args m') m fs, (λ e, (e.1, e.2, args)) <$> fs).
Proof.
  revert m. induction fs as [|[id f] fs IH]; intros m; simpl; [done|].
  by rewrite IH.
Qed.

(** Observers that leave the subject alone leave it alone all together. *)
Lemma invoke_each_frame (fs : list (nat * Function)) (args : list Value)
    (m : state * World) :
  (∀ e m', e ∈ fs → (invoke e.2 args m').1 = m'.1) →
  (invoke_each invoke fs args m).1.1 = m.1.
Proof.
  revert m. induction fs as [|[id f] fs IH]; intros m Hfs; simpl; [done|].
  specialize (IH (invoke f args m)).
  destruct (invoke_each invoke fs args (invoke f args m)) as [m' calls].
  simpl in *. rewrite IH.
  - apply (Hfs (id, f)). by left.
  - intros e m'' He. apply Hfs. by right.
Qed.

(** A notification on a subject whose pointer is valid calls the subscribers
    of the tag and the signature of the arguments, in their order. *)
Lemma notify_tagged_live (tag : Tag) (args : list Value) (st : state)
    (w : World) table :
  current st = Some table →
  notify_tagged type_of invoke tag args (st, w) =
    Some (invoke_each invoke
            (subscribers st tag (normalized_arguments type_of args)) args (st, w)).
Proof.
  intros Hc. unfold notify_tagged, notify_find. simpl.
  rewrite (subscribers_current st table _ _ Hc).
  unfold current in Hc. rewrite Hc. simpl.
  destruct (table !! tag); [done|]. simpl.
  by rewrite bucket_empty_collection.
Qed.

Lemma notify_tagged_calls (tag : Tag) (args : list Value) (st : state)
    (w : World) table :
  current st = Some table →
  ∃ m, notify_tagged type_of invoke tag args (st, w) =
         Some (m, (λ e, (e.1, e.2, args)) <$>
                    subscribers st tag (normalized_arguments type_of args)).
Proof.
  intros Hc. rewrite (notify_tagged_live tag args st w table Hc).
  pose proof (invoke_each_calls
    (subscribers st tag (normalized_arguments type_of args)) args (st, w))
    as Hcalls.
  destruct (invoke_each invoke _ args (st, w)) as [m calls].
  simpl in Hcalls. subst calls. by exists m.
Qed.

Lemma notify_tagged_result (tag : Tag) (args : list Value) (st : state)
    (w : World) table :
  current st = Some table →
  notify_tagged type_of invoke tag args (st, w) =
    Some (foldl (λ m e, invoke e.2 args m) (st, w)
            (subscribers st tag (normalized_arguments type_of args)),
          (λ e, (e.1, e.2, args)) <$>
            subscribers st tag (normalized_arguments type_of args)).
Proof.
  intros Hc. rewrite (notify_tagged_live tag args st w table Hc).
  by rewrite invoke_each_foldl.
Qed.


(** ** The static assertions *)

Lemma is_convertible_to_normalized_spec (ft : function_type Ty) :
  is_convertible_to_normalized ft = true ↔ ¬ has_mutable_reference ft.
Proof.
  unfold is_convertible_to_normalized, has_mutable_reference.
  induction (parameter_types ft) as [|p ps IH]; simpl.
  - split; [|done]. intros _ (p & Hp & _). by apply elem_of_nil in Hp.
  - rewrite andb_true_iff, IH. unfold accepts_normalized. split.
    + intros [Hp Hps] (q & Hq & Hmut). apply elem_of_cons in Hq as [->|Hq].
      * by rewrite Hmut in Hp.
      * apply Hps. eauto.
    + intros Hno. split.
      * destruct (param_passing p) eqn:Hp; try done.
        exfalso. apply Hno. exists p. split; [by left|done].
      * intros (q & Hq & Hmut). apply Hno. exists q. split; [by right|done].
Qed.

Lemma is_convertible_to_normalized_false (ft : function_type Ty) :
  is_convertible_to_normalized ft = false ↔ has_mutable_reference ft.
Proof.
  unfold is_convertible_to_normalized, has_mutable_reference.
  induction (parameter_types ft) as [|p ps IH]; simpl.
  - split; [done|]. intros (p & Hp & _). by apply elem_of_nil in Hp.
  - rewrite andb_false_iff, IH. unfold accepts_normalized. split.
    + intros [Hp|(q & Hq & Hmut)].
      * exists p. split; [by left|]. by destruct (param_passing p).
      * exists q. split; [by right|done].
    + intros (q & Hq & Hmut). apply elem_of_cons in Hq as [->|Hq].
      * left. by rewrite Hmut.
      * right. by exists q.
Qed.

Lemma diagnostics_differ : return_diagnostic ≠ reference_diagnostic.
Proof. done. Qed.

Lemma return_diagnostic_in (ft : function_type Ty) :
  return_diagnostic ∈ check_compatibility ft ↔ return_type ft ≠ None.
Proof.
  unfold check_compatibility. rewrite list_elem_of_In.
  destruct (return_type ft), (is_convertible_to_normalized ft); simpl;
    intuition (discriminate || congruence).
Qed.

Lemma reference_diagnostic_in (ft : function_type Ty) :
  reference_diagnostic ∈ check_compatibility ft ↔ has_mutable_reference ft.
Proof.
  rewrite <- is_convertible_to_normalized_false. unfold check_compatibility.
  rewrite list_elem_of_In.
  destruct (return_type ft), (is_convertible_to_normalized ft); simpl;
    intuition (discriminate || congruence).
Qed.

Lemma check_compatibility_nil (ft : function_type Ty) :
  check_compatibility ft = [] ↔
  return_type ft = None ∧ ¬ has_mutable_reference ft.
Proof.
  rewrite <- is_convertible_to_normalized_spec. unfold check_compatibility.
  destruct (return_type ft), (is_convertible_to_normalized ft); simpl;
    split; try done; by intros [? ?].
Qed.

Lemma instantiate_subscribe_inr (f : Function)
    (sub : Tag → state → option (handle Tag * state)) :
  instantiate_subscribe traits f = inr sub ↔
  check_compatibility (traits f) = [] ∧ sub = λ tag st, subscribe traits tag f st.
Proof.
  unfold instantiate_subscribe.
  destruct (check_compatibility (traits f)); split.
  - by intros [= <-].
  - by intros [_ ->].
  - done.
  - by intros [? _].
Qed.

(** ** Invariants of the operations *)

Lemma tag_collection_subscribe (tag tag' : Tag) (f : Function)
    (st st1 : state) h :
  subject_wf st → subscribe traits tag f st = Some (h, st1) →
  h = MkHandle (Some (tag, S (last_id (tag_collection st tag)))) ∧
  tag_collection st1 tag' =
    if decide (tag = tag')
    then (insert_function (normalized (traits f)) f (tag_collection st tag)).2
    else tag_collection st tag'.
Proof.
  intros (Hm & table & Hc & _) Hs.
  destruct (current_subscribe tag f st table Hm Hc) as (st1' & Hs' & _ & Hc1).
  rewrite Hs in Hs'. injection Hs' as -> <-.
  unfold tag_collection. rewrite Hc, Hc1. split; [done|].
  rewrite lookup_insert. by destruct (decide (tag = tag')).
Qed.

Lemma tag_collection_unsubscribe (tag tag' : Tag) (id : nat) (st st1 : state) :
  subject_wf st → unsubscribe tag id st = Some st1 →
  tag_collection st1 tag' =
    if decide (tag = tag') then remove id (tag_collection st tag)
    else tag_collection st tag'.
Proof.
  intros (Hm & table & Hc & _) Hs.
  destruct (current_unsubscribe tag id st table Hm Hc) as (st1' & Hs' & _ & Hc1).
  rewrite Hs in Hs'. injection Hs' as <-.
  unfold tag_collection. rewrite Hc, Hc1.
  destruct (decide (tag = tag')) as [<-|Hne].
  - destruct (table !! tag) as [c|] eqn:Htag; simpl.
    + by rewrite lookup_insert_eq.
    + rewrite Htag. simpl. unfold remove, empty_collection. simpl.
      by rewrite fmap_empty.
  - destruct (table !! tag) as [c|] eqn:Htag; [|done].
    by rewrite lookup_insert_ne.
Qed.

Lemma api_step_wf (st st1 : state) :
  subject_wf st → api_step traits st st1 → subject_wf st1.
Proof.
  intros Hwf [tag f sub h Hsub Hs|tag id Hs].
  - apply instantiate_subscribe_inr in Hsub as [_ ->].
    destruct (subscribe_wf tag f st Hwf) as (h' & st1' & Hs' & Hwf1).
    rewrite Hs in Hs'. by injection Hs' as _ <-.
  - destruct (unsubscribe_wf tag id st Hwf) as (st1' & Hs' & Hwf1).
    rewrite Hs in Hs'. by injection Hs' as <-.
Qed.

Lemma api_steps_wf (st st1 : state) :
  subject_wf st → rtc (api_step traits) st st1 → subject_wf st1.
Proof. intros Hwf Hsteps. induction Hsteps; eauto using api_step_wf. Qed.

Lemma reachable_wf (st : state) : reachable traits st → subject_wf st.
Proof. apply api_steps_wf, empty_subject_wf. Qed.

(** An identifier that was given out stays given out: the counter of a
    collection only grows and no collection is ever dropped from the table. *)
Lemma api_step_issued (st st1 : state) (tag : Tag) (id : nat) :
  subject_wf st → api_step traits st st1 →
  issued st tag id → issued st1 tag id.
Proof.
  unfold issued. intros Hwf [tag' f sub h Hsub Hs|tag' id' Hs] Hid.
  - apply instantiate_subscribe_inr in Hsub as [_ ->].
    destruct (tag_collection_subscribe tag' tag f st st1 h Hwf Hs) as [_ ->].
    destruct (decide (tag' = tag)) as [->|]; simpl; lia.
  - rewrite (tag_collection_unsubscribe tag' tag id' st st1 Hwf Hs).
    by destruct (decide (tag' = tag)) as [->|].
Qed.

(** An identifier that was removed does not come back. *)
Lemma api_step_retired (st st1 : state) (tag : Tag) (id : nat) :
  subject_wf st → api_step traits st st1 →
  retired st tag id → retired st1 tag id.
Proof.
  intros Hwf Hstep [Hid Hout]. split; [by eapply api_step_issued|].
  intros sig. specialize (Hout sig). unfold subscribers in *.
  destruct Hstep as [tag' f sub h Hsub Hs|tag' id' Hs].
  - apply instantiate_subscribe_inr in Hsub as [_ ->].
    destruct (tag_collection_subscribe tag' tag f st st1 h Hwf Hs) as [_ ->].
    destruct (decide (tag' = tag)) as [->|]; [|done].
    rewrite bucket_insert_function.
    destruct (decide (normalized (traits f) = sig)) as [<-|]; [|done].
    rewrite fmap_app. simpl. rewrite elem_of_app, list_elem_of_singleton.
    intros [?| ->]; [done|]. unfold issued in Hid. lia.
  - rewrite (tag_collection_unsubscribe tag' tag id' st st1 Hwf Hs).
    destruct (decide (tag' = tag)) as [->|]; [|done].
    rewrite bucket_remove. intros Hin. apply Hout.
    apply list_elem_of_fmap in Hin as (e & -> & He).
    apply list_elem_of_filter in He as [_ He].
    by apply list_elem_of_fmap_2.
Qed.

Lemma api_steps_retired (st st1 : state) (tag : Tag) (id : nat) :
  subject_wf st → rtc (api_step traits) st st1 →
  retired st tag id → retired st1 tag id.
Proof.
  intros Hwf Hsteps. induction Hsteps as [|st st' st'' Hstep _ IH]; [done|].
  intros Hret. apply IH; [by eapply api_step_wf|by eapply api_step_retired].
Qed.

Lemma api_steps_issued (st st1 : state) (tag : Tag) (id : nat) :
  subject_wf st → rtc (api_step traits) st st1 →
  issued st tag id → issued st1 tag id.
Proof.
  intros Hwf Hsteps. induction Hsteps as [|st st' st'' Hstep _ IH]; [done|].
  intros Hret. apply IH; [by eapply api_step_wf|by eapply api_step_issued].
Qed.

(** ** What the operations guarantee *)

(** C3.  A notification with a tag that is not in the current subscriber table
    returns normally, calls no observer and changes nothing: the subject and
    the rest of the program are as before. *)
Theorem notify_unknown_tag_no_effect (st : state) (w : World) (tag : Tag)
    (args : list Value) table :
  current st = Some table → table !! tag = None →
  notify_tagged type_of invoke tag args (st, w) = Some ((st, w), []).
Proof.
  intros Hc Htag. unfold notify_tagged, notify_find. simpl.
  unfold current in Hc. rewrite Hc. simpl. by rewrite Htag.
Qed.

(** C4.  The untagged operations are the tagged ones at the default value of
    the tag type: [subscribe(f)] is [subscribe(no_tag, f)] and
    [notify_untagged(a...)] is [notify_tagged(no_tag, a...)]. *)
Theorem untagged_is_default_tag (f : Function) (args : list Value) (st : state)
    (w : World) :
  subscribe_untagged no_tag traits f st = subscribe traits no_tag f st ∧
  notify_untagged no_tag type_of invoke args (st, w) =
    notify_tagged type_of invoke no_tag args (st, w).
Proof. split; reflexivity. Qed.


(** C10.  When the observers that a notification calls do not change the
    subject (they do not subscribe or unsubscribe), the notification returns
    with the subject as it was: the same pointer, the same tables. *)
Theorem notify_leaves_subject_unchanged (st : state) (w : World) (tag : Tag)
    (args : list Value) table :
  current st = Some table →
  (∀ e m, e ∈ subscribers st tag (normalized_arguments type_of args) →
          (invoke e.2 args m).1 = m.1) →
  ∃ w' calls,
    notify_tagged type_of invoke tag args (st, w) = Some ((st, w'), calls).
Proof.
  intros Hc Hquiet. rewrite (notify_tagged_live tag args st w table Hc).
  pose proof (invoke_each_frame _ args (st, w) Hquiet) as Hframe.
  destruct (invoke_each invoke _ args (st, w)) as [[st' w'] calls].
  simpl in Hframe. subst st'. by exists w', calls.
Qed.


Lemma retired_after_unsubscribe (st st1 : state) (tag : Tag) (id : nat) :
  subject_wf st → issued st tag id → unsubscribe tag id st = Some st1 →
  retired st1 tag id.
Proof.
  intros Hwf Hid Hs. unfold retired, issued, subscribers in *.
  rewrite (tag_collection_unsubscribe tag tag id st st1 Hwf Hs).
  rewrite decide_True by done. split; [done|].
  intros sig. rewrite bucket_remove. intros Hin.
  apply list_elem_of_fmap in Hin as (e & -> & He).
  by apply list_elem_of_filter in He as [He _].
Qed.

Lemma notify_skips_retired (st : state) (w : World) (tag : Tag)
    (args : list Value) (id : nat) :
  subject_wf st → retired st tag id →
  ∃ m calls,
    notify_tagged type_of invoke tag args (st, w) = Some (m, calls) ∧
    Forall (λ c, c.1.1 ≠ id) calls.
Proof.
  intros (_ & table & Hc & _) [_ Hout].
  destruct (notify_tagged_calls tag args st w table Hc) as [m Hn].
  eexists _, _. split; [exact Hn|].
  apply Forall_fmap, Forall_forall. intros e He. simpl. intros <-.
  apply (Hout (normalized_arguments type_of args)).
  by apply list_elem_of_fmap_2.
Qed.

Lemma filter_keeps_all {A : Type} (P : A → Prop) `{∀ x, Decision (P x)}
    (l : list A) :
  Forall P l → filter P l = l.
Proof.
  induction 1 as [|x l Hx _ IH]; [done|].
  rewrite filter_cons, decide_True by done. by rewrite IH.
Qed.

(** The removal action run for a retired identifier copies the table and
    leaves every bucket as it is. *)
Lemma unsubscribe_retired_keeps_subscribers (st st1 : state) (tag tag' : Tag)
    (id : nat) (sig : signature) :
  subject_wf st → retired st tag id → unsubscribe tag id st = Some st1 →
  subscribers st1 tag' sig = subscribers st tag' sig.
Proof.
  intros Hwf [_ Hout] Hu. pose proof Hwf as (Hm & table & Hc & _).
  rewrite (subscribers_unsubscribe tag tag' id sig st st1 table Hm Hc Hu).
  destruct (decide (tag = tag')) as [<-|]; [|done].
  apply filter_keeps_all, Forall_forall. intros e He Heq.
  apply (Hout sig). rewrite <- Heq. by apply list_elem_of_fmap_2.
Qed.

(** As long as the subject that made the token is the owner of the table:
    for a token that [subscribe] returned and whatever was subscribed or
    unsubscribed since, [unsubscribe()] succeeds, no notification issued
    afterwards with the tag, at any later time and with any arguments, calls
    the removed subscription, and a second [unsubscribe()] of the token
    changes nothing, whatever the state it is called in; the removal action
    itself, were it run again, would leave every bucket as it is. *)
Lemma unsubscribed_callback_not_called (st0 st1 st2 : state) (tag : Tag)
    (f : Function) (h : handle Tag) :
  subject_wf st0 →
  subscribe traits tag f st0 = Some (h, st1) →
  rtc (api_step traits) st1 st2 →
  ∃ id h' st3,
    unsubscribe_ h = Some (tag, id) ∧
    handle_unsubscribe h st2 = Some (h', st3) ∧
    (∀ st4 args w, rtc (api_step traits) st3 st4 →
       ∃ m calls,
         notify_tagged type_of invoke tag args (st4, w) = Some (m, calls) ∧
         Forall (λ c, c.1.1 ≠ id) calls) ∧
    (∀ st4 : state, handle_unsubscribe h' st4 = Some (h', st4)) ∧
    (∀ st4 st5 tag' sig, rtc (api_step traits) st3 st4 →
       unsubscribe tag id st4 = Some st5 →
       subscribers st5 tag' sig = subscribers st4 tag' sig).
Proof.
  intros Hwf0 Hs Hsteps.
  destruct (tag_collection_subscribe tag tag f st0 st1 h Hwf0 Hs) as [-> Hc1].
  rewrite decide_True in Hc1 by done.
  destruct (subscribe_wf tag f st0 Hwf0) as (h1 & st1' & Hs' & Hwf1).
  rewrite Hs in Hs'. injection Hs' as _ <-.
  set (id := S (last_id (tag_collection st0 tag))) in *.
  assert (issued st1 tag id) as Hid1.
  { unfold issued. rewrite Hc1. simpl. by fold id. }
  pose proof (api_steps_wf st1 st2 Hwf1 Hsteps) as Hwf2.
  pose proof (api_steps_issued st1 st2 tag id Hwf1 Hsteps Hid1) as Hid2.
  destruct (unsubscribe_wf tag id st2 Hwf2) as (st3 & Hu & Hwf3).
  exists id, (MkHandle None), st3. split; [done|]. split.
  { unfold handle_unsubscribe. simpl. by rewrite Hu. }
  pose proof (retired_after_unsubscribe st2 st3 tag id Hwf2 Hid2 Hu) as Hret.
  split_and!; [|done|].
  - intros st4 args w Hsteps'.
    apply notify_skips_retired; [by eapply api_steps_wf|].
    by eapply api_steps_retired.
  - intros st4 st5 tag' sig Hsteps' Hu'.
    eapply unsubscribe_retired_keeps_subscribers; [| |exact Hu'].
    + by eapply api_steps_wf.
    + by eapply api_steps_retired.
Qed.

Lemma move_owner (st : state) : (move st).1 = st.
Proof. by destruct st. Qed.

(** C5.  The action of a subscription token reaches the table through [this],
    the subject that made the token.  Once that subject was moved from, the
    token does not remove its callback: the weak pointer to the mutex is
    locked, as the mutex lives on with the new owner, [functions_] of the
    subject moved from is null, and the snapshot dereferences it, so
    [unsubscribe()] does not return; and the callback is still subscribed with
    the new owner, where a notification with its tag and arguments of its
    types calls it, after the subscribers that were there before it. *)
Theorem unsubscribe_after_move_faults (st st1 : state) (w : World) (tag : Tag)
    (f : Function) (h : handle Tag) (args : list Value) :
  subject_wf st →
  subscribe traits tag f st = Some (h, st1) →
  normalized_arguments type_of args = normalized (traits f) →
  ∃ id,
    unsubscribe_ h = Some (tag, id) ∧
    subject_wf (move st1).1 ∧
    mutex_ (move st1).2 = true ∧
    functions_ (move st1).2 = None ∧
    handle_unsubscribe h (move st1).2 = None ∧
    subscribers (move st1).1 tag (normalized (traits f)) =
      subscribers st tag (normalized (traits f)) ++ [(id, f)] ∧
    notify_tagged type_of invoke tag args ((move st1).1, w) =
      Some (invoke f args
              (foldl (λ m e, invoke e.2 args m) ((move st1).1, w)
                 (subscribers st tag (normalized (traits f)))),
            ((λ e, (e.1, e.2, args)) <$>
               subscribers st tag (normalized (traits f)))
            ++ [(id, f, args)]).
Proof.
  intros Hwf Hs Hsig. pose proof Hwf as (Hm & table & Hc & _).
  destruct (current_subscribe tag f st table Hm Hc) as (st1' & Hs' & Hm1 & Hc1).
  rewrite Hs in Hs'. injection Hs' as -> <-.
  destruct (subscribe_wf tag f st Hwf) as (h1 & st1' & Hs' & Hwf1).
  rewrite Hs in Hs'. injection Hs' as _ <-.
  eexists. split; [done|]. rewrite move_owner.
  split; [exact Hwf1|]. split; [exact Hm1|]. split; [done|]. split.
  { unfold handle_unsubscribe, unsubscribe, snapshot. simpl.
    by rewrite Hm1. }
  pose proof (subscribers_subscribe tag tag f (normalized (traits f)) st st1
                table _ Hm Hc Hs) as Hsub.
  rewrite decide_True in Hsub by done.
  split; [exact Hsub|].
  rewrite (notify_tagged_result tag args st1 w _ Hc1), Hsig, Hsub.
  by rewrite foldl_app, fmap_app.
Qed.

Lemma unsubscribe_last_id (st st1 : state) (tag tag' : Tag) (id : nat) :
  subject_wf st → unsubscribe tag id st = Some st1 →
  last_id (tag_collection st1 tag') = last_id (tag_collection st tag').
Proof.
  intros Hwf Hs. rewrite (tag_collection_unsubscribe tag tag' id st st1 Hwf Hs).
  by destruct (decide (tag = tag')) as [->|].
Qed.

(** C7.  A notification applies the subscribers of the bucket one after the
    other in the order in which they are stored, the first to the state in
    which the notification starts and each of the others to the state that
    the one before it has left, and this is the order of their identifiers; a
    new subscription is stored last, with an identifier above all those of
    its tag; and a callable that is removed and subscribed again gets a larger
    identifier and the last position, the others keeping their order. *)
Theorem dispatch_in_insertion_order (st : state) (w : World) (tag : Tag)
    (args : list Value) :
  subject_wf st →
  notify_tagged type_of invoke tag args (st, w) =
    Some (foldl (λ m e, invoke e.2 args m) (st, w)
            (subscribers st tag (normalized_arguments type_of args)),
          (λ e, (e.1, e.2, args)) <$>
            subscribers st tag (normalized_arguments type_of args)) ∧
  StronglySorted lt (subscribers st tag (normalized_arguments type_of args)).*1 ∧
  (∀ f, ∃ id st1,
      subscribe traits tag f st = Some (MkHandle (Some (tag, id)), st1) ∧
      subscribers st1 tag (normalized (traits f)) =
        subscribers st tag (normalized (traits f)) ++ [(id, f)] ∧
      ∀ sig e, e ∈ subscribers st tag sig → e.1 < id) ∧
  (∀ id, ∃ st1,
      unsubscribe tag id st = Some st1 ∧
      ∀ sig, subscribers st1 tag sig =
               filter (λ e, e.1 ≠ id) (subscribers st tag sig)) ∧
  (∀ id f, (id, f) ∈ subscribers st tag (normalized (traits f)) →
      ∃ st1 id' st2,
        unsubscribe tag id st = Some st1 ∧
        subscribe traits tag f st1 = Some (MkHandle (Some (tag, id')), st2) ∧
        id < id' ∧
        subscribers st2 tag (normalized (traits f)) =
          filter (λ e, e.1 ≠ id) (subscribers st tag (normalized (traits f)))
          ++ [(id', f)]).
Proof.
  intros Hwf. pose proof Hwf as (Hm & table & Hc & _).
  split_and!.
  - by apply (notify_tagged_result tag args st w table).
  - by destruct (subscribers_bounded st table tag
                   (normalized_arguments type_of args) Hwf Hc).
  - intros f.
    destruct (current_subscribe tag f st table Hm Hc) as (st1 & Hs & _ & _).
    eexists _, st1. split; [exact Hs|]. split.
    + rewrite (subscribers_subscribe tag tag f _ st st1 table _ Hm Hc Hs).
      by rewrite decide_True.
    + intros sig e He.
      destruct (subscribers_bounded st table tag sig Hwf Hc) as [_ Hb].
      rewrite Forall_forall in Hb. specialize (Hb e He). simpl in Hb. lia.
  - intros id.
    destruct (current_unsubscribe tag id st table Hm Hc) as (st1 & Hu & _ & _).
    exists st1. split; [exact Hu|]. intros sig.
    rewrite (subscribers_unsubscribe tag tag id sig st st1 table Hm Hc Hu).
    by rewrite decide_True.
  - intros id f Hin.
    destruct (subscribers_bounded st table tag (normalized (traits f)) Hwf Hc)
      as [_ Hb].
    rewrite Forall_forall in Hb. specialize (Hb _ Hin). simpl in Hb.
    destruct (unsubscribe_wf tag id st Hwf) as (st1 & Hu & Hwf1).
    pose proof Hwf1 as (Hm1 & table1 & Hc1 & _).
    destruct (current_subscribe tag f st1 table1 Hm1 Hc1) as (st2 & Hs & _ & _).
    eexists st1, _, st2. split; [exact Hu|]. split; [exact Hs|].
    pose proof (unsubscribe_last_id st st1 tag tag id Hwf Hu) as Hlast.
    unfold tag_collection in Hlast. rewrite Hc, Hc1 in Hlast.
    split; [lia|].
    rewrite (subscribers_subscribe tag tag f _ st1 st2 table1 _ Hm1 Hc1 Hs).
    rewrite decide_True by done.
    rewrite (subscribers_unsubscribe tag tag id _ st st1 table Hm Hc Hu).
    by rewrite decide_True.
Qed.

(** ** Only compatible callbacks are ever stored *)

Lemma stored_bucket (st : state) (p : nat) table (tag : Tag) (sig : signature)
    (id : nat) (g : Function) :
  heap st !! p = Some table →
  (id, g) ∈ bucket sig (default empty_collection (table !! tag)) →
  stored st g.
Proof.
  intros Hp. unfold bucket.
  destruct (table !! tag) as [c|] eqn:Htag; simpl.
  - destruct (buckets c !! sig) as [fs|] eqn:Hfs; simpl.
    + intros Hin. by exists p, table, tag, c, sig, fs, id.
    + by intros ?%elem_of_nil.
  - rewrite lookup_empty. simpl. by intros ?%elem_of_nil.
Qed.

Lemma table_at_Some (st : state) table :
  current st = Some table →
  ∃ p, functions_ st = Some p ∧ heap st !! p = Some table.
Proof.
  unfold current, table_at. destruct (functions_ st) as [p|]; [|done].
  simpl. intros Hp. by exists p.
Qed.

Lemma lookup_replaced_snoc {A : Type} (l : list A) (x y z : A) (j : nat) :
  <[length l := y]> (l ++ [x]) !! j = Some z →
  (j = length l ∧ z = y) ∨ l !! j = Some z.
Proof.
  intros Hj. apply list_lookup_insert_Some in Hj as [(<- & <- & _)|[Hne Hj]].
  - by left.
  - apply lookup_app_Some in Hj as [Hj|[Hge Hj]]; [by right|].
    destruct (j - length l) as [|k] eqn:Hk; [lia|done].
Qed.

Lemma stored_subscribe (st st1 : state) (tag : Tag) (f g : Function) h :
  subscribe traits tag f st = Some (h, st1) →
  stored st1 g → stored st g ∨ g = f.
Proof.
  intros Hs. unfold subscribe, snapshot in Hs.
  destruct (mutex_ st) eqn:Hm; [|done].
  destruct (table_at st (functions_ st)) as [table|] eqn:Hc; [|done].
  destruct (table_at_Some st table Hc) as (p0 & _ & Hp0).
  simpl in Hs. unfold subscribe_insert in Hs. simpl in Hs.
  rewrite lookup_snoc_length in Hs. simpl in Hs. injection Hs as _ <-.
  intros (p & table' & tag' & c & sig & fs & id & Hp & Htag & Hsig & Hin).
  simpl in Hp. apply lookup_replaced_snoc in Hp as [[-> ->]|Hp].
  - apply lookup_insert_Some in Htag as [[<- <-]|[Hne Htag]].
    + simpl in Hsig.
      apply lookup_insert_Some in Hsig as [[<- <-]|[Hne Hsig]].
      * apply elem_of_app in Hin as [Hin|Hin].
        -- left. by eapply stored_bucket.
        -- apply list_elem_of_singleton in Hin. injection Hin as _ ->.
           by right.
      * left. eapply (stored_bucket st p0 table tag sig id g Hp0).
        unfold bucket. by rewrite Hsig.
    + left. by exists p0, table, tag', c, sig, fs, id.
  - left. by exists p, table', tag', c, sig, fs, id.
Qed.

Lemma stored_unsubscribe (st st1 : state) (tag : Tag) (id : nat)
    (g : Function) :
  unsubscribe tag id st = Some st1 → stored st1 g → stored st g.
Proof.
  intros Hs. unfold unsubscribe, snapshot in Hs.
  destruct (mutex_ st) eqn:Hm; [|by injection Hs as <-].
  destruct (table_at st (functions_ st)) as [table|] eqn:Hc; [|done].
  destruct (table_at_Some st table Hc) as (p0 & _ & Hp0).
  simpl in Hs. unfold unsubscribe_remove in Hs. simpl in Hs.
  rewrite lookup_snoc_length in Hs. simpl in Hs.
  intros (p & table' & tag' & c & sig & fs & id' & Hp & Htag & Hsig & Hin).
  destruct (table !! tag) as [c0|] eqn:Htag0; injection Hs as <-; simpl in Hp.
  - apply lookup_replaced_snoc in Hp as [[-> ->]|Hp].
    + apply lookup_insert_Some in Htag as [[<- <-]|[Hne Htag]].
      * simpl in Hsig. rewrite lookup_fmap in Hsig.
        destruct (buckets c0 !! sig) as [fs0|] eqn:Hfs0; [|done].
        injection Hsig as <-. apply list_elem_of_filter in Hin as [_ Hin].
        by exists p0, table, tag, c0, sig, fs0, id'.
      * by exists p0, table, tag', c, sig, fs, id'.
    + by exists p, table', tag', c, sig, fs, id'.
  - apply lookup_app_Some in Hp as [Hp|[Hge Hp]].
    + by exists p, table', tag', c, sig, fs, id'.
    + destruct (p - length (heap st)) as [|k]; [|done].
      injection Hp as <-. by exists p0, table, tag', c, sig, fs, id'.
Qed.

Lemma reachable_stored_compatible (st : state) (g : Function) :
  reachable traits st → stored st g → check_compatibility (traits g) = [].
Proof.
  unfold reachable. intros Hreach. apply rtc_nsteps in Hreach as [n Hreach].
  revert st g Hreach. induction n as [|n IH]; intros st g Hreach Hst.
  - inversion Hreach; subst.
    destruct Hst as (p & table & tag & c & sig & fs & id & Hp & Htag & _).
    destruct p as [|[|p]]; simpl in Hp; try done. injection Hp as <-.
    by rewrite lookup_empty in Htag.
  - apply nsteps_inv_r in Hreach as (st' & Hreach & Hstep).
    destruct Hstep as [tag f sub h Hsub Hs|tag id Hs].
    + apply instantiate_subscribe_inr in Hsub as [Hok ->].
      destruct (stored_subscribe st' st tag f g h Hs Hst) as [Hst'| ->];
        [by eapply IH|done].
    + eapply IH; [done|]. by eapply stored_unsubscribe.
Qed.

(** C8.  A callback that returns a value or has a mutable reference parameter
    is rejected when the template [subscribe] is instantiated: there is no
    code to run for it, only the diagnostics, which name the return type or
    the reference parameters according to what is wrong; and no state that a
    subject reaches holds such a callback. *)
Theorem incompatible_callback_rejected (f : Function) :
  return_type (traits f) ≠ None ∨ has_mutable_reference (traits f) →
  (∃ diagnostics,
     instantiate_subscribe (Tag:=Tag) traits f = inl diagnostics ∧
     (return_type (traits f) ≠ None ↔ return_diagnostic ∈ diagnostics) ∧
     (has_mutable_reference (traits f) ↔ reference_diagnostic ∈ diagnostics)) ∧
  return_diagnostic ≠ reference_diagnostic ∧
  ∀ st : state, reachable traits st → ¬ stored st f.
Proof.
  intros Hbad.
  assert (check_compatibility (traits f) ≠ []) as Hne.
  { rewrite check_compatibility_nil. intros [Hret Href].
    by destruct Hbad. }
  split_and!.
  - exists (check_compatibility (traits f)). split_and!.
    + unfold instantiate_subscribe.
      by destruct (check_compatibility (traits f)).
    + symmetry. apply return_diagnostic_in.
    + symmetry. apply reference_diagnostic_in.
  - apply diagnostics_differ.
  - intros st Hreach Hst.
    by apply Hne, (reachable_stored_compatible st f).
Qed.

(** ** Threads *)

(** A thread that runs alone does what the operations do. *)
Lemma thread_runs_subscribe (st : state) (w : World) (tag : Tag) (f : Function)
    (fn : option nat) (cs : list invocation) :
  run_schedule type_of traits invoke [0; 0; 0; 0]
    (MkConfig st w None [MkThread (statements (op_subscribe tag f)) fn cs]) =
  '(_, st1) ← subscribe traits tag f st;
  Some (MkConfig st1 w None [MkThread [] fn cs]).
Proof.
  unfold subscribe, run_schedule, config_step, blocked. simpl.
  destruct (mutex_ st) eqn:Hm; simpl.
  - destruct (snapshot st) as [st1|]; simpl; [|done].
    by destruct (subscribe_insert traits tag f st1) as [[h st2]|].
  - unfold snapshot. by rewrite Hm.
Qed.

Lemma thread_runs_unsubscribe (st : state) (w : World) (tag : Tag) (id : nat)
    (fn : option nat) (cs : list invocation) :
  run_schedule type_of traits invoke [0; 0; 0; 0]
    (MkConfig st w None [MkThread (statements (op_unsubscribe tag id)) fn cs]) =
  st1 ← unsubscribe tag id st;
  Some (MkConfig st1 w None [MkThread [] fn cs]).
Proof.
  unfold unsubscribe, run_schedule, config_step, blocked. simpl.
  destruct (mutex_ st) eqn:Hm; simpl; [|done].
  destruct (snapshot st) as [st1|]; simpl; [|done].
  by destruct (unsubscribe_remove tag id st1) as [st2|].
Qed.

Lemma thread_runs_notify (st : state) (w : World) (tag : Tag)
    (args : list Value) (fn : option nat) (cs : list invocation)
    (o : option nat) :
  run_schedule type_of traits invoke [0; 0]
    (MkConfig st w o [MkThread (statements (op_notify tag args)) fn cs]) =
  '(m, calls) ← notify_tagged type_of invoke tag args (st, w);
  Some (MkConfig m.1 m.2 o [MkThread [] (functions_ st) (cs ++ calls)]).
Proof.
  unfold notify_tagged, run_schedule, config_step, blocked. simpl.
  by destruct (notify_find type_of invoke (functions_ st) tag args (st, w))
    as [[m calls]|].
Qed.

(** [notify_tagged] takes no mutex: its statements never wait for it, whoever
    holds it, and leave its owner as it is. *)
Lemma notify_takes_no_mutex (c c' : config Tag Ty Value Function World)
    (i : nat) (th : thread Tag Value Function) (s : statement Tag Value Function)
    (rest : list (statement Tag Value Function)) (tag : Tag)
    (args : list Value) :
  threads c !! i = Some th → todo th = s :: rest →
  s ∈ statements (op_notify tag args) →
  blocked c th = false ∧
  (config_step type_of traits invoke i c = Some c' → owner c' = owner c).
Proof.
  intros Hth Htodo Hs. unfold config_step, blocked. rewrite Hth. simpl.
  rewrite Htodo. simpl in Hs.
  apply elem_of_cons in Hs as [->|Hs];
    [|apply list_elem_of_singleton in Hs as ->]; simpl.
  - split; [done|]. by intros [= <-].
  - split; [done|].
    destruct (notify_find type_of invoke (functions th) tag args _)
      as [[m calls]|]; simpl; [|done]. by intros [= <-].
Qed.

(** The insertion of [subscribe] changes the table [functions_] points to, and
    leaves the pointer as it is. *)
Lemma subscribe_insert_in_place (st : state) (tag : Tag) (f : Function) table :
  current st = Some table →
  ∃ h st1,
    subscribe_insert traits tag f st = Some (h, st1) ∧
    functions_ st1 = functions_ st ∧
    current st1 =
      Some (<[tag := (insert_function (normalized (traits f)) f
                        (default empty_collection (table !! tag))).2]> table) ∧
    current st1 ≠ current st.
Proof.
  intros Hc. destruct (table_at_Some st table Hc) as (p & Hf & Hp).
  unfold subscribe_insert. rewrite Hf. simpl. rewrite Hp. simpl.
  eexists _, _. split; [done|]. split; [done|].
  assert (∀ t', current (MkSubject (<[p := t']> (heap st)) (Some p) (mutex_ st))
                = Some t') as Hcur.
  { intros t'. unfold current, table_at. simpl.
    apply list_lookup_insert_eq. by eapply lookup_lt_Some. }
  rewrite Hcur. split; [done|]. rewrite Hc. intros [= Heq].
  apply (f_equal (λ t, last_id (default empty_collection (t !! tag)))) in Heq.
  rewrite lookup_insert_eq in Heq. simpl in Heq. lia.
Qed.

(** So does the removal of detail::unsubscribe when it finds the tag. *)
Lemma unsubscribe_remove_in_place (st : state) (tag : Tag) (id : nat) table c :
  current st = Some table → table !! tag = Some c →
  ∃ st1,
    unsubscribe_remove tag id st = Some st1 ∧
    functions_ st1 = functions_ st ∧
    current st1 = Some (<[tag := remove id c]> table).
Proof.
  intros Hc Htag. destruct (table_at_Some st table Hc) as (p & Hf & Hp).
  unfold unsubscribe_remove. rewrite Hf. simpl. rewrite Hp. simpl.
  rewrite Htag. eexists. split; [done|]. split; [done|].
  unfold current, table_at. simpl.
  apply list_lookup_insert_eq. by eapply lookup_lt_Some.
Qed.

(** ** Copies and old tables *)

Lemma snapshot_Some_inv (st st1 : state) :
  snapshot st = Some st1 →
  ∃ p table,
    functions_ st = Some p ∧ heap st !! p = Some table ∧
    heap st1 = heap st ++ [table] ∧
    functions_ st1 = Some (length (heap st)) ∧
    mutex_ st = true.
Proof.
  unfold snapshot. destruct (mutex_ st) eqn:Hm; [|done].
  destruct (table_at st (functions_ st)) as [table|] eqn:Hc; [|done].
  simpl. intros [= <-]. simpl.
  destruct (table_at_Some st table Hc) as (p & Hf & Hp).
  by exists p, table.
Qed.

Lemma subscribe_Some_live (st st1 : state) (tag : Tag) (f : Function) h :
  subscribe traits tag f st = Some (h, st1) →
  mutex_ st = true ∧ ∃ table, current st = Some table.
Proof.
  unfold subscribe, snapshot, current. destruct (mutex_ st); [|done].
  destruct (table_at st (functions_ st)) as [table|]; [|done]. eauto.
Qed.

Lemma api_step_heap (st st1 : state) :
  api_step traits st st1 →
  length (heap st) ≤ length (heap st1) ≤ S (length (heap st)) ∧
  ∀ p, p < length (heap st) → heap st1 !! p = heap st !! p.
Proof.
  intros [tag f sub h Hsub Hs|tag id Hs].
  - apply instantiate_subscribe_inr in Hsub as [_ ->].
    split; [|intros p; by eapply subscribe_keeps_old_tables].
    destruct (subscribe_Some_live st st1 tag f h Hs) as (Hm & table & Hc).
    rewrite (subscribe_live tag f st table Hm Hc) in Hs.
    injection Hs as _ <-. simpl. rewrite length_insert, length_app. simpl. lia.
  - split; [|intros p; by eapply unsubscribe_keeps_old_tables].
    unfold unsubscribe in Hs. destruct (mutex_ st) eqn:Hm.
    + destruct (snapshot st) as [st0|] eqn:Hs0; [|done]. simpl in Hs.
      apply snapshot_Some_inv in Hs0 as (p & table & Hf & Hp & Hh & Hf0 & _).
      unfold unsubscribe_remove in Hs. rewrite Hf0, Hh in Hs. simpl in Hs.
      rewrite lookup_snoc_length in Hs. simpl in Hs.
      destruct (table !! tag); injection Hs as <-; simpl;
        rewrite ?length_insert, ?Hh, length_app; simpl; lia.
    + injection Hs as <-. lia.
Qed.

Lemma api_steps_heap (st st1 : state) (p : nat) :
  rtc (api_step traits) st st1 →
  p < length (heap st) →
  heap st1 !! p = heap st !! p ∧ length (heap st) ≤ length (heap st1).
Proof.
  intros Hsteps. revert p.
  induction Hsteps as [st|st st' st'' Hstep _ IH]; intros p Hp; [done|].
  destruct (api_step_heap st st' Hstep) as [[Hle _] Hold].
  destruct (IH p ltac:(lia)) as [Hsame Hlen].
  split; [|lia]. rewrite Hsame. by apply Hold.
Qed.

(** X2.  Whatever is subscribed and unsubscribed, the tables that existed
    before stay as they were, each at its address: the operations only add
    tables. *)
Theorem api_steps_keep_old_tables (st st1 : state) (p : nat) table :
  rtc (api_step traits) st st1 →
  heap st !! p = Some table →
  heap st1 !! p = Some table ∧ length (heap st) ≤ length (heap st1).
Proof.
  intros Hsteps Hp.
  destruct (api_steps_heap st st1 p Hsteps) as [Hsame Hlen];
    [by eapply lookup_lt_Some|].
  by rewrite Hsame.
Qed.


(** X4.  detail::unsubscribe with a tag that the table does not have removes
    nothing, but it has already replaced the table by a copy. *)
Theorem unsubscribe_unknown_tag (st : state) (tag : Tag) (id : nat) table :
  mutex_ st = true → current st = Some table → table !! tag = None →
  ∃ st1,
    unsubscribe tag id st = Some st1 ∧
    current st1 = Some table ∧
    functions_ st1 = Some (length (heap st)) ∧
    functions_ st1 ≠ functions_ st ∧
    heap st1 = heap st ++ [table].
Proof.
  intros Hm Hc Htag. rewrite (unsubscribe_live tag id st table Hm Hc), Htag.
  eexists. split; [done|]. simpl. split_and!; try done.
  - apply current_appended.
  - destruct (table_at_Some st table Hc) as (p & Hf & Hp).
    rewrite Hf. intros [= Heq]. apply lookup_lt_Some in Hp. lia.
Qed.

(** X5.  On a subject that was constructed and then only subscribed to and
    unsubscribed from, no operation dereferences a null or dangling pointer:
    [subscribe], detail::unsubscribe, the action of a token and
    [notify_tagged] all return. *)
Theorem reachable_operations_return (st : state) :
  reachable traits st →
  (∀ tag f, is_Some (subscribe traits tag f st)) ∧
  (∀ tag id, is_Some (unsubscribe tag id st)) ∧
  (∀ h, is_Some (handle_unsubscribe h st)) ∧
  (∀ tag args w, is_Some (notify_tagged type_of invoke tag args (st, w))).
Proof.
  intros Hwf%reachable_wf. pose proof Hwf as (Hm & table & Hc & _).
  split_and!.
  - intros tag f. by rewrite (subscribe_live tag f st table Hm Hc).
  - intros tag id. by rewrite (unsubscribe_live tag id st table Hm Hc).
  - intros [[[tag id]|]]; unfold handle_unsubscribe; simpl; [|done].
    by rewrite (unsubscribe_live tag id st table Hm Hc).
  - intros tag args w. by rewrite (notify_tagged_live tag args st w table Hc).
Qed.

(** ** Which notifications a subscription changes *)

Lemma notify_tagged_snd (tag : Tag) (args : list Value) (st : state)
    (w : World) table :
  current st = Some table →
  snd <$> notify_tagged type_of invoke tag args (st, w) =
  Some ((λ e, (e.1, e.2, args)) <$>
          subscribers st tag (normalized_arguments type_of args)).
Proof.
  intros Hc. destruct (notify_tagged_calls tag args st w table Hc) as [m ->].
  done.
Qed.

(** X6.  A subscription is reached only by notifications with its tag and with
    arguments of its normalized signature: every other notification makes the
    calls it made before the subscription. *)
Theorem subscribe_reaches_only_its_bucket (st st1 : state) (w : World)
    (tag tag' : Tag) (f : Function) (h : handle Tag) (args : list Value) :
  subscribe traits tag f st = Some (h, st1) →
  tag ≠ tag' ∨ normalized (traits f) ≠ normalized_arguments type_of args →
  snd <$> notify_tagged type_of invoke tag' args (st1, w) =
  snd <$> notify_tagged type_of invoke tag' args (st, w).
Proof.
  intros Hs Hother.
  destruct (subscribe_Some_live st st1 tag f h Hs) as (Hm & table & Hc).
  destruct (current_subscribe tag f st table Hm Hc) as (st1' & Hs' & _ & Hc1).
  rewrite Hs in Hs'. injection Hs' as _ <-.
  rewrite (notify_tagged_snd tag' args st1 w _ Hc1).
  rewrite (notify_tagged_snd tag' args st w _ Hc).
  rewrite (subscribers_subscribe tag tag' f _ st st1 table h Hm Hc Hs).
  rewrite decide_False; [done|]. intros [? ?]. by destruct Hother.
Qed.

(** X7.  detail::unsubscribe leaves the notifications of the other tags as
    they were. *)
Theorem unsubscribe_leaves_other_tags (st st1 : state) (w : World)
    (tag tag' : Tag) (id : nat) (args : list Value) :
  unsubscribe tag id st = Some st1 →
  tag ≠ tag' →
  snd <$> notify_tagged type_of invoke tag' args (st1, w) =
  snd <$> notify_tagged type_of invoke tag' args (st, w).
Proof.
  intros Hs Hne. pose proof Hs as Hs'. unfold unsubscribe in Hs'.
  destruct (mutex_ st) eqn:Hm; [|by injection Hs' as <-].
  destruct (snapshot st) as [st0|] eqn:Hs0; [|done].
  apply snapshot_Some_inv in Hs0 as (p & table & Hf & Hp & _).
  assert (current st = Some table) as Hc.
  { unfold current, table_at. by rewrite Hf. }
  destruct (current_unsubscribe tag id st table Hm Hc) as (st1' & Hu & _ & Hc1).
  rewrite Hs in Hu. injection Hu as <-.
  rewrite (notify_tagged_snd tag' args st1 w _ Hc1).
  rewrite (notify_tagged_snd tag' args st w _ Hc).
  rewrite (subscribers_unsubscribe tag tag' id _ st st1 table Hm Hc Hs).
  by rewrite decide_False.
Qed.

(** X8.  Subscribing and then unsubscribing with the returned token gives
    back the subscribers of every tag and signature; what does not come back
    is the identifier, which is never given again. *)
Theorem subscribe_unsubscribe_round_trip (st st1 st2 : state) (tag : Tag)
    (f : Function) (h h' : handle Tag) :
  subject_wf st →
  subscribe traits tag f st = Some (h, st1) →
  handle_unsubscribe h st1 = Some (h', st2) →
  (∀ tag' sig, subscribers st2 tag' sig = subscribers st tag' sig) ∧
  last_id (tag_collection st2 tag) = S (last_id (tag_collection st tag)).
Proof.
  intros Hwf Hs Hu. pose proof Hwf as (Hm & table & Hc & _).
  destruct (tag_collection_subscribe tag tag f st st1 h Hwf Hs) as [-> Hc1].
  rewrite decide_True in Hc1 by done.
  destruct (subscribe_wf tag f st Hwf) as (h1 & st1' & Hs' & Hwf1).
  rewrite Hs in Hs'. injection Hs' as _ <-.
  pose proof Hwf1 as (Hm1 & table1 & Hcur1 & _).
  unfold handle_unsubscribe in Hu. simpl in Hu.
  destruct (unsubscribe tag _ st1) as [st2'|] eqn:Hu'; [|done].
  injection Hu as _ <-. set (id := S (last_id (tag_collection st tag))) in *.
  split.
  - intros tag' sig.
    rewrite (subscribers_unsubscribe tag tag' id sig st1 st2' table1 Hm1 Hcur1 Hu').
    rewrite (subscribers_subscribe tag tag' f sig st st1 table _ Hm Hc Hs).
    destruct (decide (tag = tag')) as [<-|Hne].
    + destruct (subscribers_bounded st table tag sig Hwf Hc) as [_ Hb].
      assert (filter (λ e : nat * Function, e.1 ≠ id) (subscribers st tag sig)
              = subscribers st tag sig) as Hkeep.
      { apply filter_keeps_all. eapply Forall_impl; [exact Hb|].
        intros e He. simpl in *. unfold id, tag_collection. rewrite Hc. lia. }
      destruct (decide (tag = tag ∧ normalized (traits f) = sig)) as [[_ <-]|_];
        [|done].
      rewrite filter_app, Hkeep, filter_cons, decide_False, filter_nil.
      * by rewrite app_nil_r.
      * unfold id, tag_collection. rewrite Hc. simpl. by intros ?.
    + rewrite decide_False; [done|]. by intros [? _].
  - rewrite (unsubscribe_last_id st1 st2' tag tag id Hwf1 Hu'), Hc1. done.
Qed.



(** ** What a notification calls *)

Lemma stored_under_bucket (st : state) (p : nat) table (tag : Tag)
    (sig : signature) (id : nat) (g : Function) :
  heap st !! p = Some table →
  (id, g) ∈ bucket sig (default empty_collection (table !! tag)) →
  stored_under st sig g.
Proof.
  intros Hp. unfold bucket.
  destruct (table !! tag) as [c|] eqn:Htag; simpl.
  - destruct (buckets c !! sig) as [fs|] eqn:Hfs; simpl.
    + intros Hin. by exists p, table, tag, c, fs, id.
    + by intros ?%elem_of_nil.
  - rewrite lookup_empty. simpl. by intros ?%elem_of_nil.
Qed.

Lemma stored_under_subscribe (st st1 : state) (tag : Tag) (f g : Function) h
    (sig : signature) :
  subscribe traits tag f st = Some (h, st1) →
  stored_under st1 sig g →
  stored_under st sig g ∨ (g = f ∧ sig = normalized (traits f)).
Proof.
  intros Hs. unfold subscribe, snapshot in Hs.
  destruct (mutex_ st) eqn:Hm; [|done].
  destruct (table_at st (functions_ st)) as [table|] eqn:Hc; [|done].
  destruct (table_at_Some st table Hc) as (p0 & _ & Hp0).
  simpl in Hs. unfold subscribe_insert in Hs. simpl in Hs.
  rewrite lookup_snoc_length in Hs. simpl in Hs. injection Hs as _ <-.
  intros (p & table' & tag' & c & fs & id & Hp & Htag & Hsig & Hin).
  simpl in Hp. apply lookup_replaced_snoc in Hp as [[-> ->]|Hp].
  - apply lookup_insert_Some in Htag as [[<- <-]|[Hne Htag]].
    + simpl in Hsig.
      apply lookup_insert_Some in Hsig as [[<- <-]|[Hne Hsig]].
      * apply elem_of_app in Hin as [Hin|Hin].
        -- left. by eapply stored_under_bucket.
        -- apply list_elem_of_singleton in Hin. injection Hin as _ ->.
           by right.
      * left. eapply (stored_under_bucket st p0 table tag sig id g Hp0).
        unfold bucket. by rewrite Hsig.
    + left. by exists p0, table, tag', c, fs, id.
  - left. by exists p, table', tag', c, fs, id.
Qed.

Lemma stored_under_unsubscribe (st st1 : state) (tag : Tag) (id : nat)
    (g : Function) (sig : signature) :
  unsubscribe tag id st = Some st1 → stored_under st1 sig g →
  stored_under st sig g.
Proof.
  intros Hs. unfold unsubscribe, snapshot in Hs.
  destruct (mutex_ st) eqn:Hm; [|by injection Hs as <-].
  destruct (table_at st (functions_ st)) as [table|] eqn:Hc; [|done].
  destruct (table_at_Some st table Hc) as (p0 & _ & Hp0).
  simpl in Hs. unfold unsubscribe_remove in Hs. simpl in Hs.
  rewrite lookup_snoc_length in Hs. simpl in Hs.
  intros (p & table' & tag' & c & fs & id' & Hp & Htag & Hsig & Hin).
  destruct (table !! tag) as [c0|] eqn:Htag0; injection Hs as <-; simpl in Hp.
  - apply lookup_replaced_snoc in Hp as [[-> ->]|Hp].
    + apply lookup_insert_Some in Htag as [[<- <-]|[Hne Htag]].
      * simpl in Hsig. rewrite lookup_fmap in Hsig.
        destruct (buckets c0 !! sig) as [fs0|] eqn:Hfs0; [|done].
        injection Hsig as <-. apply list_elem_of_filter in Hin as [_ Hin].
        by exists p0, table, tag, c0, fs0, id'.
      * by exists p0, table, tag', c, fs, id'.
    + by exists p, table', tag', c, fs, id'.
  - apply lookup_app_Some in Hp as [Hp|[Hge Hp]].
    + by exists p, table', tag', c, fs, id'.
    + destruct (p - length (heap st)) as [|k]; [|done].
      injection Hp as <-. by exists p0, table, tag', c, fs, id'.
Qed.

(** Every callable is stored under its own normalized signature. *)
Lemma reachable_stored_under (st : state) (sig : signature) (g : Function) :
  reachable traits st → stored_under st sig g →
  normalized (traits g) = sig ∧ check_compatibility (traits g) = [].
Proof.
  unfold reachable. intros Hreach. apply rtc_nsteps in Hreach as [n Hreach].
  revert st sig g Hreach. induction n as [|n IH]; intros st sig g Hreach Hst.
  - inversion Hreach; subst.
    destruct Hst as (p & table & tag & c & fs & id & Hp & Htag & _).
    destruct p as [|[|p]]; simpl in Hp; try done. injection Hp as <-.
    by rewrite lookup_empty in Htag.
  - apply nsteps_inv_r in Hreach as (st' & Hreach & Hstep).
    destruct Hstep as [tag f sub h Hsub Hs|tag id Hs].
    + apply instantiate_subscribe_inr in Hsub as [Hok ->].
      destruct (stored_under_subscribe st' st tag f g h sig Hs Hst)
        as [Hst'|[-> ->]]; [by eapply IH|done].
    + eapply IH; [done|]. by eapply stored_under_unsubscribe.
Qed.

(** X10.  Dispatch is type safe: on a subject that was constructed and then
    only subscribed to and unsubscribed from, every call of a notification is
    to a callable whose normalized signature is the one of the arguments, that
    returns nothing and has no mutable reference parameter, and it passes the
    arguments of the notification. *)
Theorem notify_calls_are_well_typed (st : state) (w : World) (tag : Tag)
    (args : list Value) (m : state * World) (calls : list invocation) :
  reachable traits st →
  notify_tagged type_of invoke tag args (st, w) = Some (m, calls) →
  Forall (λ c, c.2 = args ∧
               normalized (traits c.1.2) = normalized_arguments type_of args ∧
               return_type (traits c.1.2) = None ∧
               ¬ has_mutable_reference (traits c.1.2)) calls.
Proof.
  intros Hreach Hn. pose proof (reachable_wf st Hreach) as (_ & table & Hc & _).
  pose proof (notify_tagged_snd tag args st w table Hc) as Hcalls.
  rewrite Hn in Hcalls. simpl in Hcalls. injection Hcalls as ->.
  apply Forall_fmap, Forall_forall. intros [id g] He. simpl.
  rewrite (subscribers_current st table _ _ Hc) in He.
  destruct (table_at_Some st table Hc) as (p & _ & Hp).
  pose proof (stored_under_bucket st p table tag _ id g Hp He) as Hst.
  destruct (reachable_stored_under st _ g Hreach Hst) as [Hsig Hok].
  apply check_compatibility_nil in Hok as [Hret Href]. done.
Qed.

(** ** Removal of one subscription *)

Lemma bucket_elem_lookup (c : collection) (sig : signature) (e : nat * Function) :
  e ∈ bucket sig c → ∃ fs, buckets c !! sig = Some fs ∧ e ∈ fs.
Proof.
  unfold bucket. destruct (buckets c !! sig) as [fs|]; simpl; [eauto|].
  by intros ?%elem_of_nil.
Qed.

Lemma empty_collection_unique : collection_unique (empty_collection : collection).
Proof. intros sig sig' fs fs' e e'. simpl. by rewrite lookup_empty. Qed.

Lemma insert_function_unique (sig : signature) (f : Function) (c : collection) :
  collection_wf c → collection_unique c →
  collection_unique (insert_function sig f c).2.
Proof.
  intros Hwf Huniq sig1 sig2 fs1 fs2 e1 e2. simpl. rewrite !lookup_insert.
  assert (∀ sig' fs' e', buckets c !! sig' = Some fs' → e' ∈ fs' →
                         e'.1 ≤ last_id c) as Hb.
  { intros sig' fs' e' Hfs' He'. destruct (Hwf sig' fs' Hfs') as [_ Hall].
    rewrite Forall_forall in Hall. by apply Hall. }
  destruct (decide (sig = sig1)) as [<-|Hne1];
    destruct (decide (sig = sig2)) as [<-|Hne2]; try done.
  - intros [= <-] Hfs2 [He1|He1]%elem_of_app He2 Heq.
    + apply bucket_elem_lookup in He1 as (fs1 & Hfs1 & He1).
      by apply (Huniq sig sig2 fs1 fs2 e1 e2).
    + apply list_elem_of_singleton in He1 as ->.
      specialize (Hb _ _ _ Hfs2 He2). simpl in Heq. lia.
  - intros Hfs1 [= <-] He1 [He2|He2]%elem_of_app Heq.
    + apply bucket_elem_lookup in He2 as (fs2 & Hfs2 & He2).
      by apply (Huniq sig1 sig fs1 fs2 e1 e2).
    + apply list_elem_of_singleton in He2 as ->.
      specialize (Hb _ _ _ Hfs1 He1). simpl in Heq. lia.
  - intros Hfs1 Hfs2. by apply Huniq.
Qed.

Lemma remove_unique (id : nat) (c : collection) :
  collection_unique c → collection_unique (remove id c).
Proof.
  intros Huniq sig1 sig2 fs1 fs2 e1 e2. simpl. rewrite !lookup_fmap.
  destruct (buckets c !! sig1) as [fs1'|] eqn:Hfs1; [|done].
  destruct (buckets c !! sig2) as [fs2'|] eqn:Hfs2; [|done].
  simpl. intros [= <-] [= <-] [_ He1]%list_elem_of_filter
    [_ He2]%list_elem_of_filter.
  by apply (Huniq sig1 sig2 fs1' fs2').
Qed.

Lemma api_step_unique (st st1 : state) :
  subject_wf st → api_step traits st st1 →
  (∀ tag, collection_unique (tag_collection st tag)) →
  ∀ tag, collection_unique (tag_collection st1 tag).
Proof.
  intros Hwf [tag' f sub h Hsub Hs|tag' id Hs] Huniq tag.
  - apply instantiate_subscribe_inr in Hsub as [_ ->].
    destruct (tag_collection_subscribe tag' tag f st st1 h Hwf Hs) as [_ ->].
    destruct (decide (tag' = tag)) as [->|]; [|done].
    apply insert_function_unique; [|done].
    destruct Hwf as (_ & table & Hc & Hwf). unfold tag_collection. rewrite Hc.
    destruct (table !! tag) as [c|] eqn:Htag; simpl.
    + by apply (Hwf tag).
    + apply empty_collection_wf.
  - rewrite (tag_collection_unsubscribe tag' tag id st st1 Hwf Hs).
    destruct (decide (tag' = tag)) as [->|]; [|done].
    by apply remove_unique.
Qed.

Lemma reachable_unique (st : state) (tag : Tag) :
  reachable traits st → collection_unique (tag_collection st tag).
Proof.
  unfold reachable. intros Hreach. revert tag.
  apply rtc_nsteps in Hreach as [n Hreach].
  revert st Hreach. induction n as [|n IH]; intros st Hreach tag.
  - inversion Hreach; subst. apply empty_collection_unique.
  - apply nsteps_inv_r in Hreach as (st' & Hreach & Hstep).
    eapply api_step_unique; [|exact Hstep|by apply IH].
    apply reachable_wf. by eapply rtc_nsteps_2.
Qed.

Lemma sorted_filter_one (l : list (nat * Function)) (id : nat) (f : Function) :
  StronglySorted lt l.*1 → (id, f) ∈ l →
  ∃ before after,
    l = before ++ (id, f) :: after ∧
    filter (λ e, e.1 ≠ id) l = before ++ after.
Proof.
  intros Hs Hin. apply list_elem_of_split in Hin as (l1 & l2 & ->).
  exists l1, l2. split; [done|].
  induction l1 as [|x l1 IH].
  - rewrite !app_nil_l in *. rewrite fmap_cons in Hs.
    inversion_clear Hs as [|? ? _ Hall].
    rewrite filter_cons, decide_False by (by intros ?).
    apply filter_keeps_all. rewrite Forall_fmap in Hall.
    eapply Forall_impl; [exact Hall|]. simpl. intros; lia.
  - rewrite <- !app_comm_cons in *. rewrite fmap_cons in Hs.
    inversion_clear Hs as [|? ? Hs' Hall].
    rewrite filter_cons, decide_True.
    + by rewrite IH.
    + rewrite Forall_forall in Hall. specialize (Hall id). intros Hx.
      assert (id ∈ (l1 ++ (id, f) :: l2).*1) as Hid.
      { rewrite fmap_app, elem_of_app. right. rewrite fmap_cons. by left. }
      specialize (Hall Hid). simpl in Hall. lia.
Qed.

(** X11.  On a subject that was constructed and then only subscribed to and
    unsubscribed from, detail::unsubscribe with the tag and the identifier of
    a subscription removes this subscription and no other: its bucket loses
    this one entry and keeps the order of the others, every other bucket, of
    this tag or of another, is as before. *)
Theorem unsubscribe_removes_one (st : state) (tag : Tag) (id : nat)
    (f : Function) (sig : signature) :
  reachable traits st →
  (id, f) ∈ subscribers st tag sig →
  ∃ st1 before after,
    unsubscribe tag id st = Some st1 ∧
    subscribers st tag sig = before ++ (id, f) :: after ∧
    subscribers st1 tag sig = before ++ after ∧
    ∀ tag' sig', tag' ≠ tag ∨ sig' ≠ sig →
                 subscribers st1 tag' sig' = subscribers st tag' sig'.
Proof.
  intros Hreach Hin. pose proof (reachable_wf st Hreach) as Hwf.
  pose proof Hwf as (Hm & table & Hc & _).
  destruct (current_unsubscribe tag id st table Hm Hc) as (st1 & Hu & _ & _).
  destruct (subscribers_bounded st table tag sig Hwf Hc) as [Hs _].
  destruct (sorted_filter_one _ id f Hs Hin) as (before & after & Heq & Hf).
  exists st1, before, after. split; [exact Hu|]. split; [exact Heq|]. split.
  - rewrite (subscribers_unsubscribe tag tag id sig st st1 table Hm Hc Hu).
    by rewrite decide_True.
  - intros tag' sig' Hother.
    rewrite (subscribers_unsubscribe tag tag' id sig' st st1 table Hm Hc Hu).
    destruct (decide (tag = tag')) as [<-|]; [|done].
    destruct Hother as [?|Hsig]; [done|].
    apply filter_keeps_all, Forall_forall. intros e He Heid.
    apply Hsig. unfold subscribers in *.
    apply bucket_elem_lookup in He as (fs' & Hfs' & He).
    apply bucket_elem_lookup in Hin as (fs & Hfs & Hin).
    by apply (reachable_unique st tag Hreach sig' sig fs' fs e (id, f)).
Qed.

End properties.

(** * The instance: scenarios *)

Import example.

(** [s.subscribe([](int x) { captured = x; }); s.notify(42);] *)
Example scenario_captured :
  (st ← snd <$> subscribe_untagged "" type (on_int "f") empty_subject;
   m ← fst <$> notify_untagged "" type_of record_call [v_int 42] (st, []);
   Some m.2) = Some [("f", [v_int 42])].
Proof. reflexivity. Qed.

(** [s.subscribe("A", f); s.notify("B", 1); s.notify("A", 1);] *)
Example scenario_tags :
  snd <$> notify_tagged type_of record_call "B" [v_int 1] (one_subscriber, [])
    = Some [] ∧
  snd <$> notify_tagged type_of record_call "A" [v_int 1] (one_subscriber, [])
    = Some [(1, on_int "f", [v_int 1])].
Proof. split; reflexivity. Qed.

(** [auto t = s.subscribe(f); t.unsubscribe(); s.notify(1);] *)
Example scenario_unsubscribed :
  ('(t, st) ← subscribe_untagged "" type (on_int "f") empty_subject;
   '(_, st') ← handle_unsubscribe t st;
   snd <$> notify_untagged "" type_of record_call [v_int 1] (st', []))
  = Some [].
Proof. reflexivity. Qed.

(** [auto t = s.subscribe("A", f); subject<> s2 { std::move(s) };
    t.unsubscribe();] dereferences the null [functions_] of [s], and
    [s2.notify_tagged("A", 1)] calls [f]. *)
Example scenario_moved :
  ('(t, st) ← subscribe type "A" (on_int "f") empty_subject;
   Some (handle_unsubscribe t (move st).2,
         snd <$> notify_tagged type_of record_call "A" [v_int 1]
                   ((move st).1, [])))
  = Some (None, Some [(1, on_int "f", [v_int 1])]).
Proof. reflexivity. Qed.

(** [s.subscribe("A", f); s.subscribe("A", g); s.notify("A", 1);] *)
Example scenario_order :
  (m ← fst <$> notify_tagged type_of record_call "A" [v_int 1]
                 (two_subscribers, []);
   Some m.2) = Some [("f", [v_int 1]); ("g", [v_int 1])].
Proof. reflexivity. Qed.

(** [s.subscribe([](int & x) { x = 1; })] does not compile. *)
Example scenario_reference :
  instantiate_subscribe (Tag:=string) type takes_reference
    = inl [reference_diagnostic] ∧
  instantiate_subscribe (Tag:=string) type returns_int
    = inl [return_diagnostic].
Proof. split; reflexivity. Qed.

(** Arguments of other types reach no observer of the tag. *)
Example scenario_other_signature :
  snd <$> notify_tagged type_of record_call "A" [v_text "x"] (two_subscribers, [])
    = Some [] ∧
  snd <$> notify_tagged type_of record_call "A" [v_int 1; v_int 2]
            (two_subscribers, [])
    = Some [].
Proof. split; reflexivity. Qed.

(** An observer that subscribes while it is called changes the subject, but
    not the calls of the notification that is under way. *)
Example scenario_reentrant :
  ('(_, st) ← subscribe type "A" (on_int "again") one_subscriber;
   '(m, calls) ← notify_tagged type_of resubscribing_call "A" [v_int 1] (st, []);
   Some (bool_decide (functions_ m.1 = functions_ st), m.2,
         subscribers m.1 "A" (None, ["int"]), calls))
  = Some (false,
          [("f", [v_int 1]); ("again", [v_int 1])],
          [(1, on_int "f"); (2, on_int "again"); (3, on_int "late")],
          [(1, on_int "f", [v_int 1]); (2, on_int "again", [v_int 1])]).
Proof. reflexivity. Qed.

(** While one thread is in its snapshot, a second subscriber waits for the
    mutex, and the two are not in a race. *)
Example scenario_mutex :
  (c ← run_schedule type_of type record_call [0; 1; 1] two_subscriber_threads;
   th ← threads c !! 1;
   Some (owner c, blocked c th, length (todo th),
         data_race the_pointer 0 1 c, data_race (the_table 0) 0 1 c))
  = Some (Some 0, true, 4, false, false).
Proof. reflexivity. Qed.

Lemma reachable_one_subscriber : reachable type one_subscriber.
Proof.
  apply rtc_once.
  eapply (api_subscribe type _ _ "A" (on_int "f")); [reflexivity|].
  reflexivity.
Qed.

Lemma reachable_two_subscribers : reachable type two_subscribers.
Proof.
  eapply rtc_r; [apply reachable_one_subscriber|].
  eapply (api_subscribe type _ _ "A" (on_int "g")); [reflexivity|].
  reflexivity.
Qed.


(** ** A subscription interleaved with a notification *)

(** C1.  The table that [subscribe] changes is the one it has published: in
    the schedule below the notification loads [functions_] after the snapshot
    of a concurrent [subscribe] and before its insertion.  The insertion then
    writes to the very table the notification holds, without replacing it, and
    the notification calls an observer that was not in its table when it
    loaded it; had it looked up the tag before the insertion, it would have
    called nobody. *)
Theorem subscribe_changes_published_table :
  ∃ c1 c2 notifier p table1 table2,
    run_schedule type_of type record_call [0; 0; 0; 1] subscriber_and_notifier
      = Some c1 ∧
    threads c1 !! 1 = Some notifier ∧
    functions notifier = Some p ∧
    functions_ (shared c1) = Some p ∧
    heap (shared c1) !! p = Some table1 ∧
    config_step type_of type record_call 0 c1 = Some c2 ∧
    functions_ (shared c2) = Some p ∧
    heap (shared c2) !! p = Some table2 ∧
    table1 !! "A" = None ∧
    is_Some (table2 !! "A") ∧
    (called <$> (threads <$> config_step type_of type record_call 1 c2)
       ≫= (.!! 1)) = Some [(1, on_int "f", [v_int 7])] ∧
    (called <$> (threads <$> config_step type_of type record_call 1 c1)
       ≫= (.!! 1)) = Some [].
Proof.
  do 6 eexists. split_and!.
  - reflexivity.
  - reflexivity.
  - reflexivity.
  - reflexivity.
  - reflexivity.
  - reflexivity.
  - reflexivity.
  - reflexivity.
  - reflexivity.
  - eexists. reflexivity.
  - reflexivity.
  - reflexivity.
Qed.

(** C9.  [notify_tagged] takes no mutex, and that leaves its reads unordered
    with the writes of [subscribe].  While the subscribing thread holds the
    mutex and is about to assign to [functions_], the notifying thread is about
    to load it.  After the snapshot and the load, the mutex is free, and the
    insertion of the subscription and the lookup of the notification are about
    to access the same table, one of them writing.  And two subscriptions,
    after their snapshots, are both about to write to the table that the second
    snapshot published. *)
Theorem notify_races_with_subscribe :
  (∃ c1,
     run_schedule type_of type record_call [0] subscriber_and_notifier
       = Some c1 ∧
     owner c1 = Some 0 ∧
     data_race the_pointer 0 1 c1 = true) ∧
  (∃ c1 p,
     run_schedule type_of type record_call [0; 0; 0; 1] subscriber_and_notifier
       = Some c1 ∧
     functions_ (shared c1) = Some p ∧
     owner c1 = None ∧
     data_race (the_table p) 0 1 c1 = true) ∧
  (∃ c1 p,
     run_schedule type_of type record_call [0; 0; 0; 1; 1; 1]
       two_subscriber_threads = Some c1 ∧
     functions_ (shared c1) = Some p ∧
     owner c1 = None ∧
     data_race (the_table p) 0 1 c1 = true).
Proof.
  split_and!.
  - eexists. split_and!; [reflexivity|reflexivity|].
    reflexivity.
  - do 2 eexists.
    split_and!; [reflexivity|reflexivity|reflexivity|].
    reflexivity.
  - do 2 eexists.
    split_and!; [reflexivity|reflexivity|reflexivity|].
    reflexivity.
Qed.

(** ** The theorems at the instance *)

Lemma notify_unknown_tag_no_effect_witness :
  current one_subscriber = Some (default ∅ (current one_subscriber)) ∧
  default ∅ (current one_subscriber) !! "B" = None ∧
  notify_tagged type_of record_call "B" [v_int 1] (one_subscriber, [])
    = Some ((one_subscriber, []), []).
Proof.
  split; [reflexivity|]. split; [reflexivity|].
  apply (notify_unknown_tag_no_effect type_of record_call one_subscriber []
           "B" [v_int 1] (default ∅ (current one_subscriber)));
    reflexivity.
Defined.

Lemma notify_leaves_subject_unchanged_witness :
  current two_subscribers = Some (default ∅ (current two_subscribers)) ∧
  (∀ e m, e ∈ subscribers two_subscribers "A"
                (normalized_arguments type_of [v_int 5]) →
          (record_call e.2 [v_int 5] m).1 = m.1) ∧
  ∃ w' calls,
    notify_tagged type_of record_call "A" [v_int 5] (two_subscribers, [])
      = Some ((two_subscribers, w'), calls).
Proof.
  split; [reflexivity|]. split; [intros; reflexivity|].
  apply (notify_leaves_subject_unchanged type_of record_call two_subscribers
           [] "A" [v_int 5] (default ∅ (current two_subscribers))).
  - reflexivity.
  - intros. reflexivity.
Defined.


Lemma unsubscribe_after_move_faults_witness :
  subject_wf one_subscriber ∧
  subscribe type "A" (on_int "g") one_subscriber
    = Some (MkHandle (Some ("A", 2)), two_subscribers) ∧
  normalized_arguments type_of [v_int 5] = normalized (type (on_int "g")) ∧
  handle_unsubscribe (MkHandle (Some ("A", 2))) (move two_subscribers).2 = None ∧
  notify_tagged type_of record_call "A" [v_int 5] ((move two_subscribers).1, [])
    = Some (((move two_subscribers).1,
             [("f", [v_int 5]); ("g", [v_int 5])]),
            [(1, on_int "f", [v_int 5]); (2, on_int "g", [v_int 5])]).
Proof.
  assert (subject_wf one_subscriber) as Hwf
    by apply (reachable_wf type), reachable_one_subscriber.
  split; [exact Hwf|]. split; [reflexivity|]. split; [reflexivity|].
  destruct (unsubscribe_after_move_faults type_of type record_call
              one_subscriber two_subscribers [] "A" (on_int "g")
              (MkHandle (Some ("A", 2))) [v_int 5] Hwf eq_refl eq_refl)
    as (id & Hid & _ & _ & _ & Hfault & _ & Hcalled).
  injection Hid as <-. split; [exact Hfault|].
  etrans; [exact Hcalled|reflexivity].
Defined.

Lemma unsubscribed_callback_not_called_witness :
  subject_wf (empty_subject : subject string string observer) ∧
  subscribe type "A" (on_int "f") empty_subject
    = Some (MkHandle (Some ("A", 1)), one_subscriber) ∧
  rtc (api_step type) one_subscriber two_subscribers ∧
  ∃ id h' st3,
    unsubscribe_ (MkHandle (Some ("A", 1))) = Some ("A", id) ∧
    handle_unsubscribe (MkHandle (Some ("A", 1))) two_subscribers
      = Some (h', st3) ∧
    (∀ st4 args w, rtc (api_step type) st3 st4 →
       ∃ m calls,
         notify_tagged type_of record_call "A" args (st4, w) = Some (m, calls) ∧
         Forall (λ c, c.1.1 ≠ id) calls) ∧
    (∀ st4 : subject string string observer,
       handle_unsubscribe h' st4 = Some (h', st4)) ∧
    (∀ st4 st5 tag' sig, rtc (api_step type) st3 st4 →
       unsubscribe "A" id st4 = Some st5 →
       subscribers st5 tag' sig = subscribers st4 tag' sig).
Proof.
  assert (rtc (api_step type) one_subscriber two_subscribers) as Hsteps.
  { apply rtc_once.
    eapply (api_subscribe type _ _ "A" (on_int "g")); [reflexivity|].
    reflexivity. }
  split; [apply empty_subject_wf|]. split; [reflexivity|].
  split; [exact Hsteps|].
  apply (unsubscribed_callback_not_called type_of type record_call
           empty_subject one_subscriber two_subscribers "A" (on_int "f")
           (MkHandle (Some ("A", 1)))).
  - apply empty_subject_wf.
  - reflexivity.
  - exact Hsteps.
Defined.

Lemma dispatch_in_insertion_order_witness :
  subject_wf two_subscribers ∧
  notify_tagged type_of record_call "A" [v_int 1] (two_subscribers, [])
    = Some ((two_subscribers, [("f", [v_int 1]); ("g", [v_int 1])]),
            [(1, on_int "f", [v_int 1]); (2, on_int "g", [v_int 1])]) ∧
  StronglySorted lt
    (subscribers two_subscribers "A" (normalized_arguments type_of [v_int 1])).*1 ∧
  ∀ id f, (id, f) ∈ subscribers two_subscribers "A" (normalized (type f)) →
    ∃ st1 id' st2,
      unsubscribe "A" id two_subscribers = Some st1 ∧
      subscribe type "A" f st1 = Some (MkHandle (Some ("A", id')), st2) ∧
      id < id' ∧
      subscribers st2 "A" (normalized (type f)) =
        filter (λ e, e.1 ≠ id)
          (subscribers two_subscribers "A" (normalized (type f)))
        ++ [(id', f)].
Proof.
  assert (subject_wf two_subscribers) as Hwf
    by apply (reachable_wf type), reachable_two_subscribers.
  split; [exact Hwf|].
  destruct (dispatch_in_insertion_order type_of type record_call
              two_subscribers [] "A" [v_int 1] Hwf) as (Hn & Hs & _ & _ & Hre).
  split; [etrans; [exact Hn|reflexivity]|].
  split; [exact Hs|exact Hre].
Defined.

Lemma incompatible_callback_rejected_witness :
  (return_type (type takes_reference) ≠ None ∨
   has_mutable_reference (type takes_reference)) ∧
  instantiate_subscribe (Tag:=string) type takes_reference
    = inl [reference_diagnostic] ∧
  ∀ st : subject string string observer,
    reachable type st → ¬ stored st takes_reference.
Proof.
  assert (return_type (type takes_reference) ≠ None ∨
          has_mutable_reference (type takes_reference)) as Hbad.
  { right. eexists. split; [left|reflexivity]. }
  split; [exact Hbad|]. split; [reflexivity|].
  destruct (incompatible_callback_rejected (Tag:=string) type takes_reference
              Hbad) as (_ & _ & Hnever).
  exact Hnever.
Defined.

(** ** The further properties at the instance *)

Lemma steps_one_two : rtc (api_step type) one_subscriber two_subscribers.
Proof.
  apply rtc_once.
  eapply (api_subscribe type _ _ "A" (on_int "g")); [reflexivity|].
  reflexivity.
Qed.

Lemma reachable_three_subscribers : reachable type three_subscribers.
Proof.
  eapply rtc_r; [apply reachable_two_subscribers|].
  eapply (api_subscribe type _ _ "B" (on_text "t")); [reflexivity|].
  reflexivity.
Qed.

Lemma api_steps_keep_old_tables_witness :
  rtc (api_step type) one_subscriber two_subscribers ∧
  heap one_subscriber !! 1 = Some (default ∅ (heap one_subscriber !! 1)) ∧
  heap two_subscribers !! 1 = Some (default ∅ (heap one_subscriber !! 1)) ∧
  length (heap one_subscriber) ≤ length (heap two_subscribers).
Proof.
  split; [apply steps_one_two|]. split; [reflexivity|].
  apply (api_steps_keep_old_tables type one_subscriber two_subscribers 1).
  - apply steps_one_two.
  - reflexivity.
Defined.


Lemma unsubscribe_unknown_tag_witness :
  mutex_ one_subscriber = true ∧
  current one_subscriber = Some (default ∅ (current one_subscriber)) ∧
  default ∅ (current one_subscriber) !! "B" = None ∧
  ∃ st1,
    unsubscribe "B" 1 one_subscriber = Some st1 ∧
    current st1 = Some (default ∅ (current one_subscriber)) ∧
    functions_ st1 = Some (length (heap one_subscriber)) ∧
    functions_ st1 ≠ functions_ one_subscriber ∧
    heap st1 = heap one_subscriber ++ [default ∅ (current one_subscriber)].
Proof.
  split; [reflexivity|]. split; [reflexivity|].
  split; [reflexivity|].
  apply (unsubscribe_unknown_tag one_subscriber "B" 1
           (default ∅ (current one_subscriber)));
    reflexivity.
Defined.

Lemma reachable_operations_return_witness :
  reachable type two_subscribers ∧
  (∀ tag f, is_Some (subscribe type tag f two_subscribers)) ∧
  (∀ tag id, is_Some (unsubscribe tag id two_subscribers)) ∧
  (∀ h, is_Some (handle_unsubscribe h two_subscribers)) ∧
  (∀ tag args (w : log),
     is_Some (notify_tagged type_of record_call tag args (two_subscribers, w))).
Proof.
  split; [apply reachable_two_subscribers|].
  apply (reachable_operations_return type_of type record_call two_subscribers).
  apply reachable_two_subscribers.
Defined.

Lemma subscribe_reaches_only_its_bucket_witness :
  subscribe type "B" (on_text "t") two_subscribers
    = Some (MkHandle (Some ("B", 1)), three_subscribers) ∧
  ("B" ≠ "A" ∨
   normalized (type (on_text "t")) ≠ normalized_arguments type_of [v_int 1]) ∧
  snd <$> notify_tagged type_of record_call "A" [v_int 1] (three_subscribers, [])
  = snd <$> notify_tagged type_of record_call "A" [v_int 1] (two_subscribers, []).
Proof.
  split; [reflexivity|]. split; [left; discriminate|].
  apply (subscribe_reaches_only_its_bucket type_of type record_call
           two_subscribers three_subscribers [] "B" "A" (on_text "t")
           (MkHandle (Some ("B", 1))) [v_int 1]).
  - reflexivity.
  - left. discriminate.
Defined.

Lemma unsubscribe_leaves_other_tags_witness :
  unsubscribe "B" 1 three_subscribers
    = Some (default empty_subject (unsubscribe "B" 1 three_subscribers)) ∧
  "B" ≠ "A" ∧
  snd <$> notify_tagged type_of record_call "A" [v_int 1]
            (default empty_subject (unsubscribe "B" 1 three_subscribers), [])
  = snd <$> notify_tagged type_of record_call "A" [v_int 1]
              (three_subscribers, []).
Proof.
  split; [reflexivity|]. split; [discriminate|].
  apply (unsubscribe_leaves_other_tags type_of record_call three_subscribers
           _ [] "B" "A" 1 [v_int 1]).
  - reflexivity.
  - discriminate.
Defined.

Lemma subscribe_unsubscribe_round_trip_witness :
  subject_wf one_subscriber ∧
  subscribe type "A" (on_int "g") one_subscriber
    = Some (MkHandle (Some ("A", 2)), two_subscribers) ∧
  handle_unsubscribe (MkHandle (Some ("A", 2))) two_subscribers
    = Some (MkHandle None,
            default empty_subject (unsubscribe "A" 2 two_subscribers)) ∧
  (∀ tag' sig,
     subscribers (default empty_subject (unsubscribe "A" 2 two_subscribers))
       tag' sig = subscribers one_subscriber tag' sig) ∧
  last_id (tag_collection
             (default empty_subject (unsubscribe "A" 2 two_subscribers)) "A")
    = S (last_id (tag_collection one_subscriber "A")).
Proof.
  split; [apply (reachable_wf type), reachable_one_subscriber|].
  split; [reflexivity|]. split; [reflexivity|].
  apply (subscribe_unsubscribe_round_trip type one_subscriber two_subscribers
           _ "A" (on_int "g") (MkHandle (Some ("A", 2))) (MkHandle None)).
  - apply (reachable_wf type), reachable_one_subscriber.
  - reflexivity.
  - reflexivity.
Defined.


Lemma notify_calls_are_well_typed_witness :
  reachable type three_subscribers ∧
  notify_tagged type_of record_call "A" [v_int 1] (three_subscribers, [])
    = Some ((three_subscribers, [("f", [v_int 1]); ("g", [v_int 1])]),
            [(1, on_int "f", [v_int 1]); (2, on_int "g", [v_int 1])]) ∧
  Forall (λ c, c.2 = [v_int 1] ∧
               normalized (type c.1.2) = normalized_arguments type_of [v_int 1] ∧
               return_type (type c.1.2) = None ∧
               ¬ has_mutable_reference (type c.1.2))
    [(1, on_int "f", [v_int 1]); (2, on_int "g", [v_int 1])].
Proof.
  split; [apply reachable_three_subscribers|].
  split; [reflexivity|].
  apply (notify_calls_are_well_typed type_of type record_call three_subscribers
           [] "A" [v_int 1]
           (three_subscribers, [("f", [v_int 1]); ("g", [v_int 1])])).
  - apply reachable_three_subscribers.
  - reflexivity.
Defined.

Lemma unsubscribe_removes_one_witness :
  reachable type two_subscribers ∧
  (1, on_int "f") ∈ subscribers two_subscribers "A" (None, ["int"]) ∧
  ∃ st1 before after,
    unsubscribe "A" 1 two_subscribers = Some st1 ∧
    subscribers two_subscribers "A" (None, ["int"])
      = before ++ (1, on_int "f") :: after ∧
    subscribers st1 "A" (None, ["int"]) = before ++ after ∧
    ∀ tag' sig', tag' ≠ "A" ∨ sig' ≠ (None, ["int"]) →
                 subscribers st1 tag' sig' = subscribers two_subscribers tag' sig'.
Proof.
  assert ((1, on_int "f") ∈ subscribers two_subscribers "A" (None, ["int"]))
    as Hin.
  { apply list_elem_of_In. left. reflexivity. }
  split; [apply reachable_two_subscribers|]. split; [exact Hin|].
  apply (unsubscribe_removes_one type two_subscribers "A" 1 (on_int "f")
           (None, ["int"]) reachable_two_subscribers Hin).
Defined.

